(** * bc-app : the 3D castle scene

    A shallow embedding of the asset loader and per-frame animation of
    [src/components/3d/CastlesGroup.tsx] and of the gesture-driven orbit
    camera of [src/components/3d/ModelScene.tsx], followed by the
    properties of the specification that concern them.

    Modelling conventions.
    - A JavaScript [number] is a real number ([R]): finite and not NaN.
      [Math.max], [Math.min], [Math.sin], [Math.cos] and [Math.PI] are
      [Rmax], [Rmin], [sin], [cos] and [PI].  The reals neither round nor
      overflow, so the statements keep to what the doubles share with
      them: an equality is stated where the code computes nothing or
      where it is the code's own expression, a bound is stated as an
      inequality, and a division is taken by a divisor other than 0.
    - Dynamically typed data (the imported manifest and its entries) is a
      small universe of JavaScript values, [JS.value].
    - Code that may throw lives in the monad [JS.M]: a console log that
      survives exceptions, and a completion that is normal or a throw.
      [try]/[catch] is [JS.try_catch].
    - The platform loaders ([ExpoTHREE.loadTextureAsync], [ExpoTHREE.loadAsync])
      are an environment, [CastlesGroup.Loader], over which the theorems
      quantify.  An [await] is the sequencing of the monad.
    - Only [console.warn] and [console.error] calls are logged; the
      [console.log] progress lines carry no behaviour. *)

From Stdlib Require Import Reals Lra String List ZArith Bool Lia PeanoNat.
Import ListNotations.

#[global] Set Warnings "-register-all".
Open Scope R_scope.

(* ================================================================== *)
(** * Part 1 : the program *)
(* ================================================================== *)

(** ** JavaScript values, exceptions and the console *)

Module JS.

Inductive value : Type :=
| VUndefined
| VNull
| VBool (b : bool)
| VNum (n : Z)                      (* asset handles produced by require() *)
| VStr (s : string)
| VArray (items : list value)
| VObject (fields : list (string * value)).

(** [Boolean(v)], the test behind [&&], [||], [!] and [filter(Boolean)]. *)
Definition truthy (v : value) : bool :=
  match v with
  | VUndefined | VNull => false
  | VBool b => b
  | VNum n => negb (n =? 0)%Z
  | VStr s => negb (s =? "")%string
  | VArray _ | VObject _ => true
  end.

Definition isArray (v : value) : bool :=
  match v with VArray _ => true | _ => false end.

Fixpoint lookup (fields : list (string * value)) (k : string) : value :=
  match fields with
  | [] => VUndefined
  | (k', v) :: rest => if (k' =? k)%string then v else lookup rest k
  end.

(** [v.k] for the own data properties [model], [textures] and [default].
    Every use below guards the receiver against [null] and [undefined]
    (by [&&] or by [?.]), for which the result is [undefined] here. *)
Definition prop (v : value) (k : string) : value :=
  match v with
  | VObject fields => lookup fields k
  | _ => VUndefined
  end.

(** [a || b] *)
Definition or_else (a b : value) : value := if truthy a then a else b.

Inductive completion (A : Type) : Type :=
| Normal (a : A)
| Throw (e : string).
Arguments Normal {A} a.
Arguments Throw {A} e.

Section Monad.
Variable Event : Type.

(** A computation appends to the console and completes normally or
    abruptly; what was logged before a throw stays logged. *)
Definition M (A : Type) : Type := list Event -> completion A * list Event.

Definition ret {A} (a : A) : M A := fun l => (Normal a, l).

Definition bind {A B} (m : M A) (k : A -> M B) : M B :=
  fun l =>
    match m l with
    | (Normal a, l') => k a l'
    | (Throw e, l') => (Throw e, l')
    end.

Definition throw {A} (e : string) : M A := fun l => (Throw e, l).

Definition console (ev : Event) : M unit := fun l => (Normal tt, l ++ [ev]).

Definition lift {A} (c : completion A) : M A := fun l => (c, l).

(** [try { body } catch (error) { handler }] *)
Definition try_catch {A} (body : M A) (handler : string -> M A) : M A :=
  fun l =>
    match body l with
    | (Normal a, l') => (Normal a, l')
    | (Throw e, l') => handler e l'
    end.

Definition run {A} (m : M A) : completion A * list Event := m [].
End Monad.

Arguments ret {Event A} a.
Arguments bind {Event A B} m k.
Arguments throw {Event A} e.
Arguments console {Event} ev.
Arguments lift {Event A} c.
Arguments try_catch {Event A} body handler.
Arguments run {Event A} m.

End JS.

Notation "x <- m ;; k" := (JS.bind m (fun x => k))
  (at level 61, m at next level, right associativity).
Notation "m ;;; k" := (JS.bind m (fun _ => k))
  (at level 61, right associativity).

(** ** The part of three.js the scene uses *)

Module THREE.

Record Vector3 : Type := mkVector3 { vx : R; vy : R; vz : R }.

Inductive ColorSpace := NoColorSpace | SRGBColorSpace | LinearSRGBColorSpace.
Inductive Wrapping := RepeatWrapping | ClampToEdgeWrapping | MirroredRepeatWrapping.
Inductive TextureFilter :=
  NearestFilter | LinearFilter | LinearMipmapLinearFilter.
Inductive Side := FrontSide | BackSide | DoubleSide.

Record Texture : Type := mkTexture {
  image : Z;
  colorSpace : ColorSpace;
  wrapS : Wrapping;
  wrapT : Wrapping;
  minFilter : TextureFilter;
  magFilter : TextureFilter;
  generateMipmaps : bool;
  anisotropy : Z;
  flipY : bool;
  needsUpdate : bool
}.

Record StandardParameters : Type := mkStandard {
  map : Texture;
  normalMap : Texture;
  normalScale : R * R;
  metalnessMap : Texture;
  roughnessMap : Texture;
  metalness : R;
  roughness : R;
  side : Side;
  transparent : bool;
  fog : bool
}.

Inductive Material : Type :=
| EmbeddedMaterial (id : Z)          (* whatever the asset shipped with *)
| MeshLambertMaterial (color : Z)
| MeshStandardMaterial (p : StandardParameters) (materialNeedsUpdate : bool).

(** [mesh.material] is one material or an array of them. *)
Inductive MaterialSlot : Type :=
| NoMaterial
| OneMaterial (m : Material)
| MaterialArray (ms : list Material).

Inductive Geometry : Type :=
| BufferGeometry (uv : bool)         (* geometry.attributes.uv !== undefined *)
| BoxGeometry (width height depth : R)
| ConeGeometry (radius height : R) (radialSegments : Z).

Definition hasUV (g : Geometry) : bool :=
  match g with
  | BufferGeometry uv => uv
  | BoxGeometry _ _ _ | ConeGeometry _ _ _ => true
  end.

(** The own fields of an [Object3D] ([Group], [Mesh], a loaded scene). *)
Record Node : Type := mkNode {
  name : string;
  isMesh : bool;
  geometry : option Geometry;
  material : MaterialSlot;
  position : Vector3;
  rotation : Vector3;
  scale : Vector3
}.

Inductive Object3D : Type :=
| Obj (self : Node) (children : list Object3D).

Definition self_of (o : Object3D) : Node := match o with Obj n _ => n end.
Definition children_of (o : Object3D) : list Object3D :=
  match o with Obj _ c => c end.

Definition zero3 : Vector3 := mkVector3 0 0 0.
Definition one3 : Vector3 := mkVector3 1 1 1.

(** [new THREE.Group()] *)
Definition newGroup : Object3D :=
  Obj (mkNode "" false None NoMaterial zero3 zero3 one3) [].

(** [new THREE.Mesh(geometry, material)] *)
Definition newMesh (g : Geometry) (m : Material) : Object3D :=
  Obj (mkNode "" true (Some g) (OneMaterial m) zero3 zero3 one3) [].

(** [parent.add(child)] *)
Definition add (parent child : Object3D) : Object3D :=
  match parent with Obj n c => Obj n (c ++ [child]) end.

Definition with_position (n : Node) (p : Vector3) : Node :=
  mkNode (name n) (isMesh n) (geometry n) (material n) p (rotation n) (scale n).
Definition with_rotation (n : Node) (r : Vector3) : Node :=
  mkNode (name n) (isMesh n) (geometry n) (material n) (position n) r (scale n).
Definition with_scale (n : Node) (s : Vector3) : Node :=
  mkNode (name n) (isMesh n) (geometry n) (material n) (position n) (rotation n) s.
Definition with_material (n : Node) (m : MaterialSlot) : Node :=
  mkNode (name n) (isMesh n) (geometry n) m (position n) (rotation n) (scale n).

(** [o.position.y = v] *)
Definition set_position_y (o : Object3D) (v : R) : Object3D :=
  match o with
  | Obj n c =>
      Obj (with_position n (mkVector3 (vx (position n)) v (vz (position n)))) c
  end.
(** [o.rotation.z = v] *)
Definition set_rotation_z (o : Object3D) (v : R) : Object3D :=
  match o with
  | Obj n c =>
      Obj (with_rotation n (mkVector3 (vx (rotation n)) (vy (rotation n)) v)) c
  end.
(** [o.rotation.x = v] *)
Definition set_rotation_x (o : Object3D) (v : R) : Object3D :=
  match o with
  | Obj n c =>
      Obj (with_rotation n (mkVector3 v (vy (rotation n)) (vz (rotation n)))) c
  end.
(** [o.position.set(x, y, z)] *)
Definition position_set (o : Object3D) (x y z : R) : Object3D :=
  match o with Obj n c => Obj (with_position n (mkVector3 x y z)) c end.
(** [o.scale.setScalar(s)] *)
Definition scale_setScalar (o : Object3D) (s : R) : Object3D :=
  match o with Obj n c => Obj (with_scale n (mkVector3 s s s)) c end.

End THREE.

(** ** CastlesGroup.tsx *)

Module CastlesGroup.
Import JS THREE.

(** The [console.warn] and [console.error] calls of the file.  None of
    their messages matches a pattern that [suppressGLWarnings] filters
    out, so each reaches the console.  ([ErrCastleFailed] stands for the
    message and the stack line that follows it.) *)
Inductive ConsoleEvent : Type :=
| ErrTextureFailed (index : nat)
| WarnNoUV
| WarnExpected3Textures (got : nat)
| ErrNoTexturesLoaded (castleIndex : nat)
| ErrInvalidGLTF (castleIndex : nat)
| ErrCastleFailed (castleIndex : nat)
| ErrManifestFailed
| WarnNoModels
| WarnUsingFallback (i : nat).

Definition IO : Type -> Type := M ConsoleEvent.

(** What [ExpoTHREE.loadAsync] resolves to, as far as
    [!gltf || !gltf.scene] can tell. *)
Inductive Gltf : Type :=
| GltfMissing
| GltfWithoutScene
| GltfScene (scene : Object3D).

(** The platform loaders: each call resolves or rejects. *)
Record Loader : Type := mkLoader {
  loadTextureAsync : value -> completion Texture;
  loadAsync : value -> completion Gltf
}.

(** The scene is known by the children added to it. *)
Definition Scene : Type := list Object3D.

Definition loadTextureOptimized (L : Loader) (textureResource : value)
    (index : nat) : IO (option Texture) :=
  try_catch
    (texture <- lift (loadTextureAsync L textureResource) ;;
     let cs :=
       if (index =? 0)%nat then NoColorSpace
       else if (index =? 1)%nat then SRGBColorSpace
       else if (index =? 2)%nat then NoColorSpace
       else colorSpace texture in
     ret (Some (mkTexture (image texture) cs
                  RepeatWrapping RepeatWrapping
                  LinearMipmapLinearFilter LinearFilter
                  true 4 false true)))
    (fun _ => console (ErrTextureFailed index) ;;; ret None).

Definition applyTexturesToMesh (mesh : Node) (textures : list Texture)
    (meshIndex : nat) : IO Node :=
  match geometry mesh with
  | None => throw "TypeError: cannot read properties of undefined"
  | Some geometry =>
      if negb (hasUV geometry) then
        console WarnNoUV ;;; ret mesh
      else
        match textures with
        | normalMap :: colorMap :: metallicRoughnessMap :: _ =>
            let pbrMaterial :=
              MeshStandardMaterial
                (mkStandard colorMap normalMap (1, 1)
                   metallicRoughnessMap metallicRoughnessMap
                   0.0 1.0 FrontSide false false)
                true in
            ret (with_material mesh
                   match material mesh with
                   | MaterialArray _ => MaterialArray [pbrMaterial]
                   | _ => OneMaterial pbrMaterial
                   end)
        | _ =>                      (* textures.length < 3 *)
            console (WarnExpected3Textures (length textures)) ;;; ret mesh
        end
  end.

(** The callback handed to [gltf.scene.traverse], with its counter. *)
Definition visit (textures : list Texture) (child : Node) (meshCount : nat)
    : IO (Node * nat) :=
  match isMesh child, geometry child with
  | true, Some _ =>
      child' <- applyTexturesToMesh child textures meshCount ;;
      ret (child', S meshCount)
  | _, _ => ret (child, meshCount)
  end.

(** [Object3D.traverse]: the node itself, then each child's subtree. *)
Fixpoint traverse (textures : list Texture) (o : Object3D) (meshCount : nat)
    : IO (Object3D * nat) :=
  match o with
  | Obj n cs =>
      r <- visit textures n meshCount ;;
      rs <- (fix each (cs : list Object3D) (k : nat)
               : IO (list Object3D * nat) :=
               match cs with
               | [] => ret ([], k)
               | c :: rest =>
                   rc <- traverse textures c k ;;
                   rr <- each rest (snd rc) ;;
                   ret (fst rc :: fst rr, snd rr)
               end) cs (snd r) ;;
      ret (Obj (fst r) (fst rs), snd rs)
  end.

(** [castleData.textures.map((tex, idx) => loadTextureOptimized(tex, idx))]
    awaited by [Promise.all]. *)
Fixpoint loadTextures (L : Loader) (textures : list value) (idx : nat)
    : IO (list (option Texture)) :=
  match textures with
  | [] => ret []
  | tex :: rest =>
      t <- loadTextureOptimized L tex idx ;;
      ts <- loadTextures L rest (S idx) ;;
      ret (t :: ts)
  end.

(** [.filter(Boolean)] on an array of textures and nulls. *)
Fixpoint filterBoolean {A : Type} (l : list (option A)) : list A :=
  match l with
  | [] => []
  | Some a :: rest => a :: filterBoolean rest
  | None :: rest => filterBoolean rest
  end.

Definition loadSingleCastle (L : Loader) (castleData : value)
    (castleIndex totalCastles : nat) : IO (option Object3D) :=
  try_catch
    (textures <- match prop castleData "textures" with
                 | VArray items => ret items
                 | _ => throw "TypeError: castleData.textures.map is not a function"
                 end ;;
     settled <- loadTextures L textures 0 ;;
     let loadedTextures := filterBoolean settled in
     if (length loadedTextures =? 0)%nat then
       console (ErrNoTexturesLoaded castleIndex) ;;; ret None
     else
       gltf <- lift (loadAsync L (prop castleData "model")) ;;
       match gltf with
       | GltfMissing | GltfWithoutScene =>
           console (ErrInvalidGLTF castleIndex) ;;; ret None
       | GltfScene scene =>
           r <- traverse loadedTextures scene 0 ;;
           ret (Some (add newGroup (fst r)))
       end)
    (fun _ => console (ErrCastleFailed castleIndex) ;;; ret None).

Definition colors : list Z := [0xff00ff; 0x00ffff; 0xffff00]%Z.

Definition createFallbackCastle (castleIndex : nat) : Object3D :=
  let group := newGroup in
  let body :=
    newMesh (BoxGeometry 2 3 2)
      (MeshLambertMaterial
         (nth (castleIndex mod length colors) colors 0%Z)) in
  let body := set_position_y body 1.5 in
  let roof :=
    newMesh (ConeGeometry 1.5 2 4) (MeshLambertMaterial 0xff6b6b%Z) in
  let roof := set_position_y roof 4 in
  add (add group body) roof.

(** [item && item.model && item.textures] *)
Definition validItem (item : value) : bool :=
  truthy item && truthy (prop item "model") && truthy (prop item "textures").

(** The [try] block that reads the imported manifest; [manifest] keeps
    its initial value [[]] when the block throws. *)
Definition readManifest (modelsManifest : value) : IO (list value) :=
  try_catch
    (let data :=
       if isArray modelsManifest then modelsManifest
       else or_else (prop modelsManifest "default") (VArray []) in
     match data with
     | VArray items => ret (filter validItem items)
     | _ => throw "TypeError: data.filter is not a function"
     end)
    (fun _ => console ErrManifestFailed ;;; ret []).

(** The loading loop, from index [i] on. *)
Fixpoint loadFrom (L : Loader) (manifest : list value) (i total : nat)
    : IO (list Object3D) :=
  match manifest with
  | [] => ret []
  | entry :: rest =>
      castle <- loadSingleCastle L entry i total ;;
      group <- match castle with
               | Some c => ret c
               | None =>
                   console (WarnUsingFallback i) ;;; ret (createFallbackCastle i)
               end ;;
      groups <- loadFrom L rest (S i) total ;;
      ret (group :: groups)
  end.

Definition positions : list Vector3 :=
  [ mkVector3 (-30) 0 0; mkVector3 0 0 0; mkVector3 30 0 0 ].

(** [const scale = 22] *)
Definition scale_factor : R := 22.

(** [positions[i] || positions[0]] *)
Definition slot (i : nat) : Vector3 :=
  match nth_error positions i with
  | Some pos => pos
  | None => nth 0 positions zero3
  end.

(** The positioning [forEach], from index [i] on: each group is moved,
    scaled and added to the scene. *)
Fixpoint placeFrom (castleGroups : list Object3D) (i : nat) (scene : Scene)
    : list Object3D * Scene :=
  match castleGroups with
  | [] => ([], scene)
  | castle :: rest =>
      let pos := slot i in
      let castle := position_set castle (vx pos) (vy pos) (vz pos) in
      let castle := scale_setScalar castle scale_factor in
      let '(rest', scene') := placeFrom rest (S i) (scene ++ [castle]) in
      (castle :: rest', scene')
  end.

Definition loadCastlesGroup (L : Loader) (modelsManifest : value)
    (scene : Scene) : IO (list Object3D * Scene) :=
  manifest <- readManifest modelsManifest ;;
  if (length manifest =? 0)%nat then
    console WarnNoModels ;;; ret ([], scene)
  else
    castleGroups <- loadFrom L manifest 0 (length manifest) ;;
    ret (placeFrom castleGroups 0 scene).

(** [array.forEach((item, index) => ...)] over objects updated in place. *)
Fixpoint forEachFrom {A : Type} (f : A -> nat -> A) (l : list A) (i : nat)
    : list A :=
  match l with
  | [] => []
  | a :: rest => f a i :: forEachFrom f rest (S i)
  end.

Definition animateCastles (castles : list Object3D) (time : R)
    : list Object3D :=
  forEachFrom
    (fun castle index =>
       let floatSpeed := 0.4 in
       let floatHeight := 2.5 in
       let offset := INR index * 2.0 in
       let castle :=
         set_position_y castle (sin (time * floatSpeed + offset) * floatHeight) in
       let castle :=
         set_rotation_z castle (sin (time * 0.15 + offset) * 0.02) in
       set_rotation_x castle (cos (time * 0.18 + offset * 0.5) * 0.015))
    castles 0.

End CastlesGroup.

(** ** ModelScene.tsx *)

Module ModelScene.
Import THREE.

Definition CAMERA_MIN_DISTANCE : R := 35.
Definition CAMERA_MAX_DISTANCE : R := 80.
Definition CAMERA_DEFAULT_DISTANCE : R := 50.

Record Rotation : Type := mkRotation { rot_x : R; rot_y : R }.

Definition CAMERA_DEFAULT_ROTATION : Rotation := mkRotation 0 0.

(** The text shown by [showGesture]; its auto-hide timer is not modelled. *)
Inductive Indicator : Type :=
| NoIndicator
| ResetView
| Rotating
| Zooming
| CastleSpin (n : Z).

(** The refs and state of the component, and the variables closed over
    by the animation loop ([t], the camera, the loaded castles). *)
Record State : Type := mkState {
  cameraDistanceRef : R;
  cameraRotationRef : Rotation;
  targetCameraDistanceRef : R;
  targetCameraRotationRef : Rotation;
  touchStartDistanceRef : R;
  castleRotationsRef : list R;
  gestureIndicator : Indicator;
  frameCountRef : nat;
  t : R;
  cameraPosition : Vector3;
  castles : list Object3D
}.

(** The state when the loop starts, the castles being those returned by
    [loadCastlesGroup]. *)
Definition initial (loaded : list Object3D) : State :=
  mkState CAMERA_DEFAULT_DISTANCE (mkRotation 0 0)
          CAMERA_DEFAULT_DISTANCE (mkRotation 0 0)
          0 [0; 0; 0] NoIndicator 0%nat 0 (mkVector3 0 0 50) loaded.

Definition showGesture (gesture : Indicator) (s : State) : State :=
  mkState (cameraDistanceRef s) (cameraRotationRef s)
          (targetCameraDistanceRef s) (targetCameraRotationRef s)
          (touchStartDistanceRef s) (castleRotationsRef s) gesture
          (frameCountRef s) (t s) (cameraPosition s) (castles s).

Definition setGestureIndicator : Indicator -> State -> State := showGesture.

Definition set_target (d : R) (r : Rotation) (s : State) : State :=
  mkState (cameraDistanceRef s) (cameraRotationRef s) d r
          (touchStartDistanceRef s) (castleRotationsRef s) (gestureIndicator s)
          (frameCountRef s) (t s) (cameraPosition s) (castles s).

Definition resetCamera (s : State) : State :=
  showGesture ResetView
    (set_target CAMERA_DEFAULT_DISTANCE
       (mkRotation (rot_x CAMERA_DEFAULT_ROTATION) (rot_y CAMERA_DEFAULT_ROTATION))
       s).

Definition updateCameraRotation (deltaX deltaY : R) (s : State) : State :=
  let y := rot_y (targetCameraRotationRef s) + deltaX * 0.01 in
  let x := rot_x (targetCameraRotationRef s) - deltaY * 0.01 in
  let x := Rmax (- PI / 2.5) (Rmin (PI / 2.5) x) in
  set_target (targetCameraDistanceRef s) (mkRotation x y) s.

(** For a [scale] other than 0.  At 0 the quotient in the code is an
    infinity or NaN, which the reals do not have; the statements about
    the zoom take runs whose pinch updates report a nonzero scale. *)
Definition updateCameraZoom (scale : R) (s : State) : State :=
  let newDistance := touchStartDistanceRef s / scale in
  set_target
    (Rmax CAMERA_MIN_DISTANCE (Rmin CAMERA_MAX_DISTANCE newDistance))
    (targetCameraRotationRef s) s.

Definition saveTouchStartDistance (s : State) : State :=
  mkState (cameraDistanceRef s) (cameraRotationRef s)
          (targetCameraDistanceRef s) (targetCameraRotationRef s)
          (cameraDistanceRef s) (castleRotationsRef s) (gestureIndicator s)
          (frameCountRef s) (t s) (cameraPosition s) (castles s).

(** [a[k] += d] at an index the array has.  (The array is created with
    three elements and never resized.) *)
Fixpoint add_at (a : list R) (k : nat) (d : R) : list R :=
  match a, k with
  | [], _ => []
  | v :: rest, O => (v + d) :: rest
  | v :: rest, S k' => v :: add_at rest k' d
  end.

Definition rotateCastle (castleIndex : Z) (s : State) : State :=
  if ((0 <=? castleIndex) && (castleIndex <? 3))%Z then
    showGesture (CastleSpin (castleIndex + 1))
      (mkState (cameraDistanceRef s) (cameraRotationRef s)
         (targetCameraDistanceRef s) (targetCameraRotationRef s)
         (touchStartDistanceRef s)
         (add_at (castleRotationsRef s) (Z.to_nat castleIndex) (PI / 4))
         (gestureIndicator s)
         (frameCountRef s) (t s) (cameraPosition s) (castles s))
  else s.

(** The band chosen by the tap handler for a tap at [tapX] on a screen
    of width [screenWidth]. *)
Definition tappedCastle (screenWidth tapX : R) : Z :=
  if Rlt_dec tapX (screenWidth / 3) then 0%Z
  else if Rlt_dec tapX ((2 * screenWidth) / 3) then 1%Z
  else 2%Z.

Definition tapGesture (width : R) (x : R) (s : State) : State :=
  rotateCastle (tappedCastle width x) s.

(** The call [animateCastles(castles, t, castleRotationsRef.current)]:
    the callee declares two parameters, so the third argument is
    evaluated and dropped. *)
Definition call_animateCastles (castles : list Object3D) (time : R)
    (rotations : list R) : list Object3D :=
  CastlesGroup.animateCastles castles time.

(** One tick of [animate] while the component is mounted.  (The debug
    overlay refreshed every 60 frames only displays the state.) *)
Definition animate (s : State) : State :=
  let t' := t s + 0.01 in
  let lerpFactor := 0.15 in
  let distance :=
    cameraDistanceRef s
    + (targetCameraDistanceRef s - cameraDistanceRef s) * lerpFactor in
  let rx :=
    rot_x (cameraRotationRef s)
    + (rot_x (targetCameraRotationRef s) - rot_x (cameraRotationRef s))
      * lerpFactor in
  let ry :=
    rot_y (cameraRotationRef s)
    + (rot_y (targetCameraRotationRef s) - rot_y (cameraRotationRef s))
      * lerpFactor in
  let theta := ry in
  let phi := PI / 2 + rx in
  let camera :=
    mkVector3 (distance * sin phi * sin theta)
              (distance * cos phi)
              (distance * sin phi * cos theta) in
  mkState distance (mkRotation rx ry)
          (targetCameraDistanceRef s) (targetCameraRotationRef s)
          (touchStartDistanceRef s) (castleRotationsRef s) (gestureIndicator s)
          (S (frameCountRef s)) t' camera
          (call_animateCastles (castles s) t' (castleRotationsRef s)).

(** What can happen to the mounted component. *)
Inductive Event : Type :=
| PanStart
| PanUpdate (translationX translationY : R)
| PanEnd
| PinchStart
| PinchUpdate (scale : R)
| PinchEnd
| Tap (x : R)
| Reset
| Frame.

Definition step (width : R) (s : State) (e : Event) : State :=
  match e with
  | PanStart => showGesture Rotating s
  | PanUpdate dx dy => updateCameraRotation dx dy s
  | PanEnd => setGestureIndicator NoIndicator s
  | PinchStart => showGesture Zooming (saveTouchStartDistance s)
  | PinchUpdate scale => updateCameraZoom scale s
  | PinchEnd => setGestureIndicator NoIndicator s
  | Tap x => tapGesture width x s
  | Reset => resetCamera s
  | Frame => animate s
  end.

Definition run (width : R) (s : State) (events : list Event) : State :=
  fold_left (step width) events s.

End ModelScene.

(** ** CastlesGroup.tsx : the console patch *)

Module Console.

(** [s.includes(sub)] *)
Fixpoint includes (s sub : string) : bool :=
  String.prefix sub s
  || match s with
     | EmptyString => false
     | String _ rest => includes rest sub
     end.

Inductive Level : Type := LogLevel | WarnLevel | ErrorLevel.

(** What has reached the device, oldest first. *)
Definition Output : Type := list (Level * string).

(** The three console methods [suppressGLWarnings] replaces.  A method is
    given [msg = String(args[0] || '')]: the first argument is a string in
    every call of these files and of the libraries they silence, and an
    absent or empty one reads as the empty string. *)
Record console : Type := mkConsole {
  log : string -> Output -> Output;
  warn : string -> Output -> Output;
  error : string -> Output -> Output
}.

(** The console before any patch. *)
Definition device : console :=
  mkConsole (fun msg out => out ++ [(LogLevel, msg)])
            (fun msg out => out ++ [(WarnLevel, msg)])
            (fun msg out => out ++ [(ErrorLevel, msg)]).

Definition suppressGLWarnings (c : console) : console :=
  let originalWarn := warn c in
  let originalLog := log c in
  let originalError := error c in
  mkConsole
    (fun msg out =>
       if includes msg "EXGL: gl.pixelStorei()" then out
       else originalLog msg out)
    (fun msg out =>
       if includes msg "EXGL: gl.pixelStorei()" then out
       else originalWarn msg out)
    (fun msg out =>
       if includes msg "THREE.GLTFLoader"
          && includes msg "Couldn't load texture" then out
       else if includes msg "EXGL:" then out
       else originalError msg out).

End Console.

(** ** ModelScene.tsx : the loading text *)

Module Overlay.
Import THREE ModelScene.

Definition LOADING_MESSAGES : list string :=
  [ "Summoning magical realms...";
    "Crafting floating castles...";
    "Painting enchanted textures...";
    "Weaving cosmic threads...";
    "Channeling mystical energies..." ]%string.

(** [array.indexOf(x)], [-1] when [x] is absent. *)
Fixpoint indexOf (l : list string) (x : string) : Z :=
  match l with
  | [] => (-1)%Z
  | y :: rest =>
      if (y =? x)%string then 0%Z
      else let i := indexOf rest x in
           if (i <? 0)%Z then (-1)%Z else (i + 1)%Z
  end.

(** The updater handed to [setLoadingMessage] every two seconds; [None]
    is [undefined]. *)
Definition nextLoadingMessage (prev : string) : option string :=
  let currentIndex := indexOf LOADING_MESSAGES prev in
  let nextIndex :=
    Z.rem (currentIndex + 1) (Z.of_nat (length LOADING_MESSAGES)) in
  if (nextIndex <? 0)%Z then None
  else nth_error LOADING_MESSAGES (Z.to_nat nextIndex).

End Overlay.

(* ================================================================== *)
(** * Part 2 : vocabulary of the statements *)
(* ================================================================== *)

Module Vocabulary.
Import JS THREE CastlesGroup.

(** The value bound to [data] while the manifest is read. *)
Definition manifestData (modelsManifest : value) : value :=
  if isArray modelsManifest then modelsManifest
  else or_else (prop modelsManifest "default") (VArray []).

(** The entries [loadCastlesGroup] goes on to load. *)
Definition manifestEntries (modelsManifest : value) : list value :=
  match manifestData modelsManifest with
  | VArray items => filter validItem items
  | _ => []
  end.

(** The scene-graph load of an entry fails: the loader throws, resolves
    to nothing, or resolves to something without a scene root. *)
Definition sceneGraphLoadFails (L : Loader) (entry : value) : Prop :=
  match loadAsync L (prop entry "model") with
  | Throw _ => True
  | Normal GltfMissing => True
  | Normal GltfWithoutScene => True
  | Normal (GltfScene _) => False
  end.

(** A group as the positioning loop leaves it at index [i]. *)
Definition placed (castle : Object3D) (i : nat) : Object3D :=
  scale_setScalar
    (position_set castle (vx (slot i)) (vy (slot i)) (vz (slot i)))
    scale_factor.

Definition position_of (o : Object3D) : Vector3 := position (self_of o).
Definition rotation_of (o : Object3D) : Vector3 := rotation (self_of o).
Definition scale_of (o : Object3D) : Vector3 := scale (self_of o).

(** The warnings a traversal with fewer than three textures emits, in
    visiting order: one per mesh that has a geometry. *)
Fixpoint meshWarnings (got : nat) (o : Object3D) : list ConsoleEvent :=
  match o with
  | Obj n cs =>
      match isMesh n, geometry n with
      | true, Some g =>
          [if hasUV g then WarnExpected3Textures got else WarnNoUV]
      | _, _ => []
      end
      ++ flat_map (meshWarnings got) cs
  end.

(** Everything of a group that the animation has no business with:
    all fields but [position.y], [rotation.x] and [rotation.z]. *)
Definition same_outside_animation (g g' : Object3D) : Prop :=
  name (self_of g') = name (self_of g)
  /\ isMesh (self_of g') = isMesh (self_of g)
  /\ geometry (self_of g') = geometry (self_of g)
  /\ material (self_of g') = material (self_of g)
  /\ vx (position_of g') = vx (position_of g)
  /\ vz (position_of g') = vz (position_of g)
  /\ vy (rotation_of g') = vy (rotation_of g)
  /\ scale_of g' = scale_of g
  /\ children_of g' = children_of g.

(** The manifest shipped in [assets/models]: three castles, each a
    model and three textures.  [require] yields opaque asset numbers. *)
Definition castleEntry (model img0 img1 img2 : Z) : value :=
  VObject [ ("model"%string, VNum model);
            ("textures"%string, VArray [VNum img0; VNum img1; VNum img2]) ].

Definition shippedManifest : value :=
  VArray [ castleEntry 1 2 3 4; castleEntry 5 6 7 8; castleEntry 9 10 11 12 ].

(** The same manifest behind a module object: [{ default: [...] }]. *)
Definition wrappedManifest : value :=
  VObject [ ("default"%string, shippedManifest) ].

(** A manifest of four castles. *)
Definition fourCastles : list value :=
  [ castleEntry 1 2 3 4; castleEntry 5 6 7 8;
    castleEntry 9 10 11 12; castleEntry 13 14 15 16 ].

(** The imported manifest offers nothing to load: its data is not an
    array, or is an array without an entry that carries both a model and
    textures. *)
Definition noLoadableEntry (modelsManifest : value) : Prop :=
  match manifestData modelsManifest with
  | VArray items => filter validItem items = []
  | _ => True
  end.

(** A texture as the platform loader hands it over (three.js defaults). *)
Definition rawTexture (img : Z) : Texture :=
  mkTexture img NoColorSpace ClampToEdgeWrapping ClampToEdgeWrapping
            LinearMipmapLinearFilter LinearFilter true 1 true false.

(** A loaded scene: a root holding one UV-mapped mesh. *)
Definition sampleScene : Object3D :=
  Obj (mkNode "Scene" false None NoMaterial zero3 zero3 one3)
      [ Obj (mkNode "castle" true (Some (BufferGeometry true))
               (OneMaterial (EmbeddedMaterial 0)) zero3 zero3 one3) [] ].

(** Every asset loads. *)
Definition healthyLoader : Loader :=
  mkLoader (fun v => match v with
                     | VNum n => Normal (rawTexture n)
                     | _ => Throw "not an asset"
                     end)
           (fun _ => Normal (GltfScene sampleScene)).

(** Models load, no texture does. *)
Definition texturelessLoader : Loader :=
  mkLoader (fun _ => Throw "texture unavailable")
           (fun _ => Normal (GltfScene sampleScene)).

(** Only the texture with asset number [3] loads. *)
Definition oneTextureLoader : Loader :=
  mkLoader (fun v => match v with
                     | VNum 3 => Normal (rawTexture 3)
                     | _ => Throw "texture unavailable"
                     end)
           (fun _ => Normal (GltfScene sampleScene)).

(** Every texture loads but the one with asset number [2]. *)
Definition firstTextureMissing : Loader :=
  mkLoader (fun v => match v with
                     | VNum 2 => Throw "texture unavailable"
                     | VNum n => Normal (rawTexture n)
                     | _ => Throw "not an asset"
                     end)
           (fun _ => Normal (GltfScene sampleScene)).

(** Textures load, no model does. *)
Definition modellessLoader : Loader :=
  mkLoader (fun v => match v with
                     | VNum n => Normal (rawTexture n)
                     | _ => Throw "not an asset"
                     end)
           (fun _ => Throw "model unavailable").

(** The three values a frame writes into the group at [index]. *)
Definition bob (time : R) (index : nat) : R :=
  sin (time * 0.4 + INR index * 2.0) * 2.5.
Definition sway_z (time : R) (index : nat) : R :=
  sin (time * 0.15 + INR index * 2.0) * 0.02.
Definition sway_x (time : R) (index : nat) : R :=
  cos (time * 0.18 + INR index * 2.0 * 0.5) * 0.015.

(** The vertical-rotation limit of the camera. *)
Definition PITCH_LIMIT : R := PI / 2.5.

(** One fallback castle on the left slot, tapped once, then drawn once,
    on a screen 900 units wide. *)
Definition oneCastle : list Object3D := [ placed (createFallbackCastle 0) 0 ].

(** The camera invariant: both distances within the zoom limits, both
    pitches within the vertical limit. *)
Definition camera_in_range (s : ModelScene.State) : Prop :=
  ModelScene.CAMERA_MIN_DISTANCE <= ModelScene.targetCameraDistanceRef s
    <= ModelScene.CAMERA_MAX_DISTANCE
  /\ ModelScene.CAMERA_MIN_DISTANCE <= ModelScene.cameraDistanceRef s
       <= ModelScene.CAMERA_MAX_DISTANCE
  /\ - PITCH_LIMIT <= ModelScene.rot_x (ModelScene.targetCameraRotationRef s)
       <= PITCH_LIMIT
  /\ - PITCH_LIMIT <= ModelScene.rot_x (ModelScene.cameraRotationRef s)
       <= PITCH_LIMIT.

(** Every pinch update of a run reports a scale other than 0. *)
Definition pinchScalesNonzero (events : list ModelScene.Event) : Prop :=
  Forall (fun e =>
            match e with
            | ModelScene.PinchUpdate scale => scale <> 0
            | _ => True
            end) events.

(** A run with a drag, a pinch, frames and a reset. *)
Definition sampleRun : list ModelScene.Event :=
  [ ModelScene.PanUpdate 10 4000; ModelScene.PinchStart;
    ModelScene.PinchUpdate 2; ModelScene.Frame; ModelScene.Reset;
    ModelScene.Frame ].

End Vocabulary.

Module Shape.
Import JS THREE CastlesGroup ModelScene Vocabulary.

(** The nodes of a scene graph in visiting order. *)
Fixpoint nodes (o : Object3D) : list Node :=
  match o with
  | Obj n cs => n :: flat_map nodes cs
  end.

(** A scene graph with its materials taken off. *)
Fixpoint skeleton (o : Object3D) : Object3D :=
  match o with
  | Obj n cs => Obj (with_material n NoMaterial) (List.map skeleton cs)
  end.

(** A node the traversal hands to [applyTexturesToMesh]. *)
Definition texturable (n : Node) : bool :=
  match isMesh n, geometry n with
  | true, Some _ => true
  | _, _ => false
  end.

(** ... and one it can texture. *)
Definition uvMapped (n : Node) : bool :=
  match isMesh n, geometry n with
  | true, Some g => hasUV g
  | _, _ => false
  end.

Definition countMeshes (o : Object3D) : nat :=
  length (filter texturable (nodes o)).

(** The material built from a normal map, a colour map and a
    metallic/roughness map. *)
Definition pbrOf (normalMap colorMap metallicRoughnessMap : Texture)
    : Material :=
  MeshStandardMaterial
    (mkStandard colorMap normalMap (1, 1)
       metallicRoughnessMap metallicRoughnessMap
       0.0 1.0 FrontSide false false)
    true.

(** How a node looks after a traversal with the three maps, given how it
    looked before. *)
Definition retextured (normalMap colorMap metallicRoughnessMap : Texture)
    (before after : Node) : Prop :=
  if uvMapped before then
    after = with_material before
              match material before with
              | MaterialArray _ =>
                  MaterialArray [pbrOf normalMap colorMap metallicRoughnessMap]
              | _ => OneMaterial (pbrOf normalMap colorMap metallicRoughnessMap)
              end
  else after = before.

(** A texture as [loadTextureOptimized] leaves it. *)
Definition configured (t : Texture) (space : ColorSpace) (img : Z) : Prop :=
  image t = img /\ colorSpace t = space /\ flipY t = false
  /\ wrapS t = RepeatWrapping /\ wrapT t = RepeatWrapping.

(** The number of taps among [events] that fall on band [k]. *)
Fixpoint tapsOn (width : R) (k : Z) (events : list Event) : nat :=
  match events with
  | [] => 0
  | Tap x :: rest =>
      (if (tappedCastle width x =? k)%Z then 1 else 0) + tapsOn width k rest
  | _ :: rest => tapsOn width k rest
  end.

(** The number of frames among [events]. *)
Fixpoint framesIn (events : list Event) : nat :=
  match events with
  | [] => 0
  | Frame :: rest => S (framesIn rest)
  | _ :: rest => framesIn rest
  end.

(** [x] lies between [a] and [b], whichever is the smaller. *)
Definition between (a b x : R) : Prop := Rmin a b <= x <= Rmax a b.

(** No coordinate of the camera exceeds the current distance. *)
Definition within_distance (s : State) : Prop :=
  - cameraDistanceRef s <= vx (cameraPosition s) <= cameraDistanceRef s
  /\ - cameraDistanceRef s <= vy (cameraPosition s) <= cameraDistanceRef s
  /\ - cameraDistanceRef s <= vz (cameraPosition s) <= cameraDistanceRef s.

(** Every castle of a list floats within the animation's amplitudes. *)
Definition castles_within_bounds (castles : list Object3D) : Prop :=
  forall i g,
    nth_error castles i = Some g ->
    - 2.5 <= vy (position_of g) <= 2.5
    /\ - 0.02 <= vz (rotation_of g) <= 0.02
    /\ - 0.015 <= vx (rotation_of g) <= 0.015.

(** The loading text after [n] ticks of the two-second interval. *)
Fixpoint loadingMessageAfter (n : nat) (shown : string) : option string :=
  match n with
  | O => Some shown
  | S n' =>
      match Overlay.nextLoadingMessage shown with
      | Some next => loadingMessageAfter n' next
      | None => None
      end
  end.

End Shape.

(* ================================================================== *)
(** * Part 3 : properties *)
(* ================================================================== *)

(** ** The loader *)

Module LoaderFacts.
Import JS THREE CastlesGroup Vocabulary.

(** Induction on scene graphs that reaches the children. *)
Lemma Object3D_tree_ind (P : Object3D -> Prop) :
  (forall n cs, Forall P cs -> P (Obj n cs)) ->
  forall o, P o.
Proof.
  intros step.
  fix IH 1.
  intros [n cs]. apply step.
  induction cs as [|c rest IHrest]; constructor.
  - apply IH.
  - exact IHrest.
Qed.

(** *** Textures *)

Lemma loadTextureOptimized_settles L res index log :
  loadTextureOptimized L res index log =
  match loadTextureAsync L res with
  | Normal texture =>
      (Normal (Some (mkTexture (image texture)
                       (if (index =? 0)%nat then NoColorSpace
                        else if (index =? 1)%nat then SRGBColorSpace
                        else if (index =? 2)%nat then NoColorSpace
                        else colorSpace texture)
                       RepeatWrapping RepeatWrapping
                       LinearMipmapLinearFilter LinearFilter
                       true 4 false true)),
       log)
  | Throw _ => (Normal None, log ++ [ErrTextureFailed index])
  end.
Proof.
  unfold loadTextureOptimized, try_catch, bind, lift, ret, console.
  destruct (loadTextureAsync L res); reflexivity.
Qed.

Lemma loadTextures_total L textures :
  forall idx log, exists settled log',
    loadTextures L textures idx log = (Normal settled, log').
Proof.
  induction textures as [|tex rest IH]; intros idx log; simpl.
  - eexists _, _. reflexivity.
  - unfold bind. rewrite loadTextureOptimized_settles.
    destruct (loadTextureAsync L tex).
    + destruct (IH (S idx) log) as (settled & log' & E). rewrite E.
      eexists _, _. reflexivity.
    + destruct (IH (S idx) (log ++ [ErrTextureFailed idx]))
        as (settled & log' & E).
      rewrite E. eexists _, _. reflexivity.
Qed.

(** *** Texturing a scene with an incomplete texture set *)

Lemma applyTexturesToMesh_incomplete mesh g textures meshIndex log :
  geometry mesh = Some g ->
  (length textures < 3)%nat ->
  applyTexturesToMesh mesh textures meshIndex log =
  (Normal mesh,
   log ++ [if hasUV g then WarnExpected3Textures (length textures)
           else WarnNoUV]).
Proof.
  intros Hg Hlen. unfold applyTexturesToMesh. rewrite Hg.
  destruct (hasUV g); simpl.
  - destruct textures as [|a [|b [|c rest]]]; simpl in *; try lia;
      reflexivity.
  - reflexivity.
Qed.

Lemma visit_incomplete textures n k log :
  (length textures < 3)%nat ->
  exists k',
    visit textures n k log =
    (Normal (n, k'),
     log ++ match isMesh n, geometry n with
            | true, Some g =>
                [if hasUV g then WarnExpected3Textures (length textures)
                 else WarnNoUV]
            | _, _ => []
            end).
Proof.
  intros Hlen. unfold visit.
  destruct (isMesh n); [destruct (geometry n) as [g|] eqn:Hg|].
  - unfold bind.
    rewrite (applyTexturesToMesh_incomplete n g textures k log Hg Hlen).
    eexists. reflexivity.
  - eexists. unfold ret. rewrite app_nil_r. reflexivity.
  - eexists. unfold ret. rewrite app_nil_r. reflexivity.
Qed.

Lemma traverse_incomplete textures :
  (length textures < 3)%nat ->
  forall o k log, exists k',
    traverse textures o k log =
    (Normal (o, k'), log ++ meshWarnings (length textures) o).
Proof.
  intros Hlen o.
  induction o as [n cs IH] using Object3D_tree_ind.
  intros k log. simpl.
  unfold bind at 1.
  destruct (visit_incomplete textures n k log Hlen) as (k1 & Ev).
  rewrite Ev. simpl fst; simpl snd.
  set (w := match isMesh n, geometry n with
            | true, Some g =>
                [if hasUV g then WarnExpected3Textures (length textures)
                 else WarnNoUV]
            | _, _ => []
            end) in *.
  clear Ev.
  assert (Hcs : forall k log, exists k',
    (fix each (cs : list Object3D) (k : nat)
       : IO (list Object3D * nat) :=
       match cs with
       | [] => ret ([], k)
       | c :: rest =>
           rc <- traverse textures c k ;;
           rr <- each rest (snd rc) ;;
           ret (fst rc :: fst rr, snd rr)
       end) cs k log =
    (Normal (cs, k'), log ++ flat_map (meshWarnings (length textures)) cs)).
  { clear k log k1. induction IH as [|c rest Hc _ IHrest]; intros k log.
    - exists k. unfold ret. simpl. rewrite app_nil_r. reflexivity.
    - destruct (Hc k log) as (kc & Ec).
      destruct (IHrest kc (log ++ meshWarnings (length textures) c))
        as (kr & Er).
      exists kr. unfold bind at 1. rewrite Ec. simpl snd.
      unfold bind at 1. rewrite Er. unfold ret. simpl.
      rewrite app_assoc. reflexivity. }
  destruct (Hcs k1 (log ++ w)) as (k2 & E2).
  exists k2. unfold bind at 1. rewrite E2. unfold ret. simpl.
  rewrite app_assoc. reflexivity.
Qed.

(** *** One castle *)

Lemma try_catch_settles {A} (body : IO A) (h : string -> IO A) log :
  (forall e l, exists a l', h e l = (Normal a, l')) ->
  exists a l', try_catch body h log = (Normal a, l').
Proof.
  intros Hh. unfold try_catch.
  destruct (body log) as [[a | e] l'].
  - eexists _, _. reflexivity.
  - apply Hh.
Qed.

Lemma loadSingleCastle_total L castleData castleIndex totalCastles log :
  exists r log',
    loadSingleCastle L castleData castleIndex totalCastles log
    = (Normal r, log').
Proof.
  apply try_catch_settles. intros e l.
  eexists _, _. reflexivity.
Qed.

(** Whatever the textures do, a failing scene-graph load yields no group. *)
Lemma loadSingleCastle_model_failure L castleData castleIndex totalCastles log :
  sceneGraphLoadFails L castleData ->
  exists log',
    loadSingleCastle L castleData castleIndex totalCastles log
    = (Normal None, log').
Proof.
  unfold sceneGraphLoadFails. intros Hfail.
  unfold loadSingleCastle, try_catch.
  destruct (prop castleData "textures") as [| | b | n | s | items | fields];
    try (unfold bind, throw, console, ret; simpl; eexists; reflexivity).
  unfold bind at 1. unfold ret at 1.
  unfold bind at 1.
  destruct (loadTextures_total L items 0%nat log) as (settled & log1 & E).
  rewrite E.
  destruct (length (filterBoolean settled) =? 0)%nat.
  - unfold bind, console, ret. eexists. reflexivity.
  - unfold bind at 1. unfold lift.
    destruct (loadAsync L (prop castleData "model")) as [[| | scene] | e].
    + unfold bind, console, ret. eexists. reflexivity.
    + unfold bind, console, ret. eexists. reflexivity.
    + contradiction.
    + unfold bind, console, ret. eexists. reflexivity.
Qed.

(** *** The loading loop *)

Lemma loadFrom_spec L manifest total :
  forall i log, exists groups log',
    loadFrom L manifest i total log = (Normal groups, log')
    /\ length groups = length manifest
    /\ (forall j entry,
          nth_error manifest j = Some entry ->
          sceneGraphLoadFails L entry ->
          nth_error groups j = Some (createFallbackCastle (i + j))).
Proof.
  induction manifest as [|entry rest IH]; intros i log; simpl.
  - exists [], log. repeat split. intros [|j] e H; discriminate.
  - unfold bind at 1.
    destruct (loadSingleCastle_total L entry i total log) as (r & log1 & E1).
    rewrite E1.
    set (chosen := match r with
                   | Some c => c
                   | None => createFallbackCastle i
                   end).
    set (log2 := match r with
                 | Some _ => log1
                 | None => log1 ++ [WarnUsingFallback i]
                 end).
    destruct (IH (S i) log2) as (groups & log' & E2 & Hlen & Hfall).
    exists (chosen :: groups), log'. split; [|split].
    + unfold bind at 1.
      assert (Ech : match r with
                    | Some c => ret c
                    | None =>
                        console (WarnUsingFallback i) ;;;
                        ret (createFallbackCastle i)
                    end log1 = (Normal chosen, log2)).
      { subst chosen log2. destruct r; reflexivity. }
      rewrite Ech. unfold bind at 1. rewrite E2. reflexivity.
    + simpl. rewrite Hlen. reflexivity.
    + intros [|j] e Hnth Hfail; simpl in *.
      * injection Hnth as ->.
        destruct (loadSingleCastle_model_failure L e i total log Hfail)
          as (log'' & E''). rewrite E1 in E''. injection E'' as -> _.
        subst chosen. rewrite Nat.add_0_r. reflexivity.
      * rewrite (Hfall j e Hnth Hfail). f_equal. f_equal. lia.
Qed.

(** *** Placement *)

Lemma placeFrom_groups castleGroups :
  forall i scene j,
    nth_error (fst (placeFrom castleGroups i scene)) j
    = option_map (fun g => placed g (i + j)) (nth_error castleGroups j).
Proof.
  induction castleGroups as [|g rest IH]; intros i scene j; simpl.
  - destruct j; reflexivity.
  - destruct (placeFrom rest (S i) _) as [rest' scene'] eqn:E.
    destruct j as [|j]; simpl.
    + rewrite Nat.add_0_r. reflexivity.
    + specialize (IH (S i)
        (scene ++ [scale_setScalar
                     (position_set g (vx (slot i)) (vy (slot i)) (vz (slot i)))
                     scale_factor]) j).
      rewrite E in IH. simpl in IH. rewrite IH.
      replace (i + S j)%nat with (S (i + j)) by lia. reflexivity.
Qed.

Lemma placeFrom_length castleGroups :
  forall i scene,
    length (fst (placeFrom castleGroups i scene)) = length castleGroups.
Proof.
  induction castleGroups as [|g rest IH]; intros i scene; simpl.
  - reflexivity.
  - specialize (IH (S i)
      (scene ++ [scale_setScalar
                   (position_set g (vx (slot i)) (vy (slot i)) (vz (slot i)))
                   scale_factor])).
    destruct (placeFrom rest (S i) _) as [rest' scene']. simpl in *.
    rewrite IH. reflexivity.
Qed.

Lemma placeFrom_scene castleGroups :
  forall i scene,
    snd (placeFrom castleGroups i scene)
    = scene ++ fst (placeFrom castleGroups i scene).
Proof.
  induction castleGroups as [|g rest IH]; intros i scene; simpl.
  - rewrite app_nil_r. reflexivity.
  - specialize (IH (S i)
      (scene ++ [scale_setScalar
                   (position_set g (vx (slot i)) (vy (slot i)) (vz (slot i)))
                   scale_factor])).
    destruct (placeFrom rest (S i) _) as [rest' scene']. simpl in *.
    rewrite IH, <- app_assoc. reflexivity.
Qed.

Lemma placed_position g i : position_of (placed g i) = slot i.
Proof. destruct g as [n cs]. unfold placed, position_of. simpl.
       destruct (slot i); reflexivity. Qed.

Lemma placed_scale g i :
  scale_of (placed g i) = mkVector3 scale_factor scale_factor scale_factor.
Proof. destruct g as [n cs]. reflexivity. Qed.

(** *** The manifest *)

Lemma readManifest_spec modelsManifest log :
  exists log',
    readManifest modelsManifest log
    = (Normal (manifestEntries modelsManifest), log')
    /\ (forall items, manifestData modelsManifest = VArray items -> log' = log)
    /\ ((forall items, manifestData modelsManifest <> VArray items) ->
        log' = log ++ [ErrManifestFailed]).
Proof.
  unfold readManifest, manifestEntries, try_catch.
  fold (manifestData modelsManifest).
  destruct (manifestData modelsManifest) as [| | b | n | s | items | fields];
    try (eexists; split; [reflexivity | split;
         [intros items H; discriminate | intros _; reflexivity]]).
  exists log. split; [reflexivity | split; [reflexivity|]].
  intros H. exfalso. apply (H items). reflexivity.
Qed.

(** The ways a manifest offers nothing to load. *)

Lemma noLoadableEntry_array items :
  filter validItem items = [] -> noLoadableEntry (VArray items).
Proof. intros H. exact H. Qed.

Lemma noLoadableEntry_no_default modelsManifest :
  isArray modelsManifest = false ->
  truthy (prop modelsManifest "default") = false ->
  noLoadableEntry modelsManifest.
Proof.
  intros Harr Hdef. unfold noLoadableEntry, manifestData, or_else.
  rewrite Harr, Hdef. reflexivity.
Qed.

Lemma noLoadableEntry_default_not_array modelsManifest :
  isArray modelsManifest = false ->
  truthy (prop modelsManifest "default") = true ->
  isArray (prop modelsManifest "default") = false ->
  noLoadableEntry modelsManifest.
Proof.
  intros Harr Hdef Hnot. unfold noLoadableEntry, manifestData, or_else.
  rewrite Harr, Hdef.
  destruct (prop modelsManifest "default"); try exact I. discriminate.
Qed.

(** *** The whole loader *)

Lemma loadCastlesGroup_spec L modelsManifest scene log :
  exists castleGroups log',
    loadCastlesGroup L modelsManifest scene log
    = (Normal (placeFrom castleGroups 0 scene), log')
    /\ length castleGroups = length (manifestEntries modelsManifest)
    /\ (forall i entry,
          nth_error (manifestEntries modelsManifest) i = Some entry ->
          sceneGraphLoadFails L entry ->
          nth_error castleGroups i = Some (createFallbackCastle i)).
Proof.
  unfold loadCastlesGroup. unfold bind at 1.
  destruct (readManifest_spec modelsManifest log) as (log0 & E0 & _).
  rewrite E0.
  destruct (length (manifestEntries modelsManifest) =? 0)%nat eqn:Hempty.
  - apply Nat.eqb_eq in Hempty.
    exists [], (log0 ++ [WarnNoModels]). split; [reflexivity|]. split.
    + symmetry. exact Hempty.
    + intros i entry Hnth _.
      apply length_zero_iff_nil in Hempty. rewrite Hempty in Hnth.
      destruct i; discriminate.
  - destruct (loadFrom_spec L (manifestEntries modelsManifest)
                (length (manifestEntries modelsManifest)) 0%nat log0)
      as (groups & log' & E & Hlen & Hfall).
    exists groups, log'. split; [|split].
    + unfold bind at 1. rewrite E. reflexivity.
    + exact Hlen.
    + exact Hfall.
Qed.

Lemma loadCastlesGroup_placement L modelsManifest scene :
  exists groups scene' log,
    run (loadCastlesGroup L modelsManifest scene)
    = (Normal (groups, scene'), log)
    /\ length groups = length (manifestEntries modelsManifest)
    /\ scene' = scene ++ groups
    /\ forall i g,
         nth_error groups i = Some g ->
         position_of g = slot i
         /\ scale_of g = mkVector3 scale_factor scale_factor scale_factor.
Proof.
  unfold run.
  destruct (loadCastlesGroup_spec L modelsManifest scene [])
    as (gs & log & E & Hlen & _).
  exists (fst (placeFrom gs 0 scene)), (snd (placeFrom gs 0 scene)), log.
  rewrite <- surjective_pairing. split; [exact E|]. split; [|split].
  - rewrite placeFrom_length. exact Hlen.
  - apply placeFrom_scene.
  - intros i g Hg. rewrite placeFrom_groups in Hg.
    destruct (nth_error gs i) as [g0|]; [|discriminate].
    simpl in Hg. injection Hg as <-.
    rewrite placed_position, placed_scale. split; reflexivity.
Qed.

End LoaderFacts.


(** ** What the specification says of the loader *)

Module LoaderSpec.
Import JS THREE CastlesGroup Vocabulary LoaderFacts.

(** C7.  A texture that loads is configured by its role: roles 0 (normal
    map) and 2 (metallic/roughness) get [NoColorSpace], which is what the
    source calls linear (no colour-space reinterpretation); role 1 (base
    colour) gets [SRGBColorSpace]; and whatever the role, [flipY] is
    [false]. *)
Theorem texture_color_space_by_role
    L textureResource (r : nat) raw log :
  loadTextureAsync L textureResource = Normal raw ->
  exists texture,
    loadTextureOptimized L textureResource r log
    = (Normal (Some texture), log)
    /\ flipY texture = false
    /\ (r = 0%nat \/ r = 2%nat -> colorSpace texture = NoColorSpace)
    /\ (r = 1%nat -> colorSpace texture = SRGBColorSpace).
Proof.
  intros Hload. rewrite loadTextureOptimized_settles, Hload.
  eexists. split; [reflexivity|]. split; [reflexivity|]. split.
  - intros [-> | ->]; reflexivity.
  - intros ->; reflexivity.
Qed.

Lemma texture_color_space_by_role_witness :
  exists texture,
    loadTextureOptimized healthyLoader (VNum 3) 1 []
    = (Normal (Some texture), [])
    /\ flipY texture = false
    /\ (1%nat = 0%nat \/ 1%nat = 2%nat -> colorSpace texture = NoColorSpace)
    /\ (1%nat = 1%nat -> colorSpace texture = SRGBColorSpace).
Proof.
  exact (texture_color_space_by_role
           healthyLoader (VNum 3) 1%nat (rawTexture 3) [] eq_refl).
Defined.

(** C1.  [loadCastlesGroup] always returns normally.  Run against any two
    loaders on the same manifest it returns the same number of groups,
    and the groups at equal indices have the same position and the same
    scale, so neither depends on which loads succeeded.  Wherever the
    scene-graph load of an entry fails (a throw, no result, no scene
    root), the group at that index is the procedural fallback castle,
    placed like any other. *)
Theorem fallback_substitution L L' modelsManifest scene :
  exists groups scene1 log groups' scene1' log',
    run (loadCastlesGroup L modelsManifest scene)
    = (Normal (groups, scene1), log)
    /\ run (loadCastlesGroup L' modelsManifest scene)
       = (Normal (groups', scene1'), log')
    /\ length groups = length groups'
    /\ (forall i g g',
          nth_error groups i = Some g ->
          nth_error groups' i = Some g' ->
          position_of g = position_of g' /\ scale_of g = scale_of g')
    /\ (forall i entry,
          nth_error (manifestEntries modelsManifest) i = Some entry ->
          sceneGraphLoadFails L entry ->
          nth_error groups i = Some (placed (createFallbackCastle i) i)).
Proof.
  unfold run.
  destruct (loadCastlesGroup_spec L modelsManifest scene [])
    as (gs & log & E & Hlen & Hfall).
  destruct (loadCastlesGroup_spec L' modelsManifest scene [])
    as (gs' & log' & E' & Hlen' & _).
  exists (fst (placeFrom gs 0 scene)), (snd (placeFrom gs 0 scene)), log,
         (fst (placeFrom gs' 0 scene)), (snd (placeFrom gs' 0 scene)), log'.
  rewrite <- !surjective_pairing.
  split; [exact E|]. split; [exact E'|]. split; [|split].
  - rewrite !placeFrom_length. congruence.
  - intros i g g' Hg Hg'. rewrite placeFrom_groups in Hg, Hg'.
    destruct (nth_error gs i); [|discriminate].
    destruct (nth_error gs' i); [|discriminate].
    simpl in Hg, Hg'. injection Hg as <-. injection Hg' as <-.
    rewrite !placed_position, !placed_scale. split; reflexivity.
  - intros i entry Hnth Hfail.
    rewrite placeFrom_groups, (Hfall i entry Hnth Hfail). reflexivity.
Qed.

Lemma fallback_substitution_witness :
  exists groups scene1 log,
    run (loadCastlesGroup modellessLoader shippedManifest [])
    = (Normal (groups, scene1), log)
    /\ nth_error groups 1 = Some (placed (createFallbackCastle 1) 1).
Proof.
  destruct (fallback_substitution modellessLoader healthyLoader
              shippedManifest [])
    as (groups & scene1 & log & _ & _ & _ & E & _ & _ & _ & Hfall).
  exists groups, scene1, log. split; [exact E|].
  apply (Hfall 1%nat (castleEntry 5 6 7 8)); [reflexivity | exact I].
Defined.

(** *** Placement (C4) *)

Lemma manifestEntries_well_formed items :
  forallb validItem items = true ->
  manifestEntries (VArray items) = items.
Proof.
  unfold manifestEntries, manifestData. simpl.
  induction items as [|item rest IH]; simpl; [reflexivity|].
  intros H. apply andb_true_iff in H as [Hitem Hrest].
  rewrite Hitem, (IH Hrest). reflexivity.
Qed.

Lemma slot_table i :
  (i = 0%nat -> slot i = mkVector3 (-30) 0 0)
  /\ (i = 1%nat -> slot i = mkVector3 0 0 0)
  /\ (i = 2%nat -> slot i = mkVector3 30 0 0)
  /\ ((3 <= i)%nat -> slot i = mkVector3 (-30) 0 0).
Proof.
  repeat split; try (intros ->; reflexivity).
  intros Hi. do 3 (destruct i as [|i]; [lia|]). unfold slot. simpl.
  destruct i; reflexivity.
Qed.

(** C4, as the code has it.  For a manifest of [n] well-formed entries
    the loader returns [n] groups, each scaled uniformly by 22; the groups
    at indices 0, 1 and 2 stand at (-30,0,0), (0,0,0) and (30,0,0), and
    every group at an index of 3 or more stands at the first slot,
    (-30,0,0). *)
Theorem castles_stand_on_their_slots L items scene :
  forallb validItem items = true ->
  exists groups scene' log,
    run (loadCastlesGroup L (VArray items) scene)
    = (Normal (groups, scene'), log)
    /\ length groups = length items
    /\ forall i g,
         nth_error groups i = Some g ->
         scale_of g = mkVector3 22 22 22
         /\ (i = 0%nat -> position_of g = mkVector3 (-30) 0 0)
         /\ (i = 1%nat -> position_of g = mkVector3 0 0 0)
         /\ (i = 2%nat -> position_of g = mkVector3 30 0 0)
         /\ ((3 <= i)%nat -> position_of g = mkVector3 (-30) 0 0).
Proof.
  intros Hwf.
  destruct (loadCastlesGroup_placement L (VArray items) scene)
    as (groups & scene' & log & E & Hlen & _ & Hpos).
  rewrite (manifestEntries_well_formed items Hwf) in Hlen.
  exists groups, scene', log. split; [exact E|]. split; [exact Hlen|].
  intros i g Hg. destruct (Hpos i g Hg) as [-> ->].
  split; [reflexivity | apply slot_table].
Qed.

Lemma castles_stand_on_their_slots_witness :
  exists groups scene' log,
    run (loadCastlesGroup healthyLoader (VArray fourCastles) [])
    = (Normal (groups, scene'), log)
    /\ length groups = 4%nat
    /\ forall i g,
         nth_error groups i = Some g ->
         scale_of g = mkVector3 22 22 22
         /\ (i = 0%nat -> position_of g = mkVector3 (-30) 0 0)
         /\ (i = 1%nat -> position_of g = mkVector3 0 0 0)
         /\ (i = 2%nat -> position_of g = mkVector3 30 0 0)
         /\ ((3 <= i)%nat -> position_of g = mkVector3 (-30) 0 0).
Proof.
  exact (castles_stand_on_their_slots healthyLoader fourCastles [] eq_refl).
Defined.

(** C4, as the specification has it, fails twice.  On the shipped
    three-castle manifest the first group stands at (-30,0,0), not at
    (-25,0,0); and on a manifest of four castles no spacing makes
    [x = (i - (n-1)/2) * spacing] hold at every index. *)
Lemma slots_are_not_the_specified_ones :
  (exists groups scene' log g,
     run (loadCastlesGroup healthyLoader shippedManifest [])
     = (Normal (groups, scene'), log)
     /\ nth_error groups 0 = Some g
     /\ position_of g = mkVector3 (-30) 0 0
     /\ position_of g <> mkVector3 (-25) 0 0)
  /\ (exists groups scene' log,
        run (loadCastlesGroup healthyLoader (VArray fourCastles) [])
        = (Normal (groups, scene'), log)
        /\ length groups = 4%nat
        /\ ~ exists spacing,
             forall i g,
               nth_error groups i = Some g ->
               vx (position_of g) = (INR i - (4 - 1) / 2) * spacing).
Proof.
  split.
  - destruct (loadCastlesGroup_placement healthyLoader shippedManifest [])
      as (groups & scene' & log & E & Hlen & _ & Hpos).
    destruct groups as [|g rest]; [discriminate|].
    exists (g :: rest), scene', log, g.
    split; [exact E|]. split; [reflexivity|].
    destruct (Hpos 0%nat g eq_refl) as [-> _].
    split; [reflexivity|].
    intros H. injection H as H. lra.
  - destruct (loadCastlesGroup_placement healthyLoader (VArray fourCastles) [])
      as (groups & scene' & log & E & Hlen & _ & Hpos).
    exists groups, scene', log. split; [exact E|]. split; [exact Hlen|].
    intros (spacing & Hsp).
    destruct groups as [|g0 [|g1 rest]]; try discriminate.
    pose proof (Hsp 0%nat g0 eq_refl) as X0.
    pose proof (Hsp 1%nat g1 eq_refl) as X1.
    destruct (Hpos 0%nat g0 eq_refl) as [P0 _].
    destruct (Hpos 1%nat g1 eq_refl) as [P1 _].
    rewrite P0 in X0. rewrite P1 in X1.
    simpl in X0, X1. lra.
Qed.

(** *** Incomplete texture sets (C6) *)

(** C6, as the code has it.  Once the textures of a model have settled:
    if none loaded, the model load gives up at once, with an error and no
    group (the caller then substitutes the fallback); if one or two
    loaded and the scene graph loads, the load succeeds, the group holds
    the loaded scene with every material left as it was, and each mesh
    that has a geometry is answered by one warning. *)
Theorem incomplete_textures_skip_texturing
    L castleData castleIndex totalCastles items settled log log1 :
  prop castleData "textures" = VArray items ->
  loadTextures L items 0 log = (Normal settled, log1) ->
  (length (filterBoolean settled) = 0%nat ->
   loadSingleCastle L castleData castleIndex totalCastles log
   = (Normal None, log1 ++ [ErrNoTexturesLoaded castleIndex]))
  /\ (forall scene,
        (0 < length (filterBoolean settled) < 3)%nat ->
        loadAsync L (prop castleData "model") = Normal (GltfScene scene) ->
        loadSingleCastle L castleData castleIndex totalCastles log
        = (Normal (Some (add newGroup scene)),
           log1 ++ meshWarnings (length (filterBoolean settled)) scene)).
Proof.
  intros Htex Hsettled. split.
  - intros Hnone.
    unfold loadSingleCastle, try_catch. rewrite Htex.
    unfold bind at 1. unfold ret at 1.
    unfold bind at 1. rewrite Hsettled, Hnone. reflexivity.
  - intros scene [Hsome Hfew] Hmodel.
    unfold loadSingleCastle, try_catch. rewrite Htex.
    unfold bind at 1. unfold ret at 1.
    unfold bind at 1. rewrite Hsettled.
    destruct (length (filterBoolean settled) =? 0)%nat eqn:Hz.
    { apply Nat.eqb_eq in Hz. lia. }
    unfold bind at 1. unfold lift. rewrite Hmodel.
    destruct (traverse_incomplete (filterBoolean settled) Hfew scene 0%nat log1)
      as (k & Etr).
    unfold bind at 1. rewrite Etr. reflexivity.
Qed.

Lemma incomplete_textures_skip_texturing_witness :
  loadSingleCastle oneTextureLoader (castleEntry 1 2 3 4) 0 3 []
  = (Normal (Some (add newGroup sampleScene)),
     [ErrTextureFailed 0; ErrTextureFailed 2] ++ meshWarnings 1 sampleScene).
Proof.
  refine (proj2 (incomplete_textures_skip_texturing
                   oneTextureLoader (castleEntry 1 2 3 4) 0%nat 3%nat
                   [VNum 2; VNum 3; VNum 4]
                   [None; Some _; None] []
                   [ErrTextureFailed 0; ErrTextureFailed 2]
                   eq_refl eq_refl)
                sampleScene _ eq_refl).
  simpl. lia.
Defined.

(** C6, as the specification has it, fails when no texture loads: the
    geometry is there to be loaded, yet the model load returns no group. *)
Lemma no_texture_fails_the_model :
  loadAsync texturelessLoader (prop (castleEntry 1 2 3 4) "model")
  = Normal (GltfScene sampleScene)
  /\ run (loadSingleCastle texturelessLoader (castleEntry 1 2 3 4) 0 3)
     = (Normal None,
        [ErrTextureFailed 0; ErrTextureFailed 1; ErrTextureFailed 2;
         ErrNoTexturesLoaded 0]).
Proof. split; reflexivity. Qed.

(** *** Manifests with nothing to load (C9) *)

Lemma manifestEntries_none modelsManifest :
  noLoadableEntry modelsManifest -> manifestEntries modelsManifest = [].
Proof.
  unfold noLoadableEntry, manifestEntries.
  destruct (manifestData modelsManifest); intros H; try reflexivity.
  exact H.
Qed.

(** C9, as the code has it.  When the manifest data (the imported value
    if it is an array, else its [default] property, else the empty array)
    is not an array, or is an array none of whose entries carries both a
    model and textures, [loadCastlesGroup] returns normally with no group,
    leaves the scene as it was, and ends on the warning that the manifest
    has no models. *)
Theorem unusable_manifest_yields_no_castles L modelsManifest scene :
  noLoadableEntry modelsManifest ->
  exists log,
    run (loadCastlesGroup L modelsManifest scene)
    = (Normal ([], scene), log ++ [WarnNoModels]).
Proof.
  intros Hnone. apply manifestEntries_none in Hnone.
  unfold run, loadCastlesGroup. unfold bind at 1.
  destruct (readManifest_spec modelsManifest []) as (log0 & E0 & _).
  rewrite E0, Hnone. exists log0. reflexivity.
Qed.

Lemma unusable_manifest_yields_no_castles_witness :
  exists log,
    run (loadCastlesGroup healthyLoader
           (VArray [VNull; VObject [("model"%string, VNum 1)]]) [sampleScene])
    = (Normal ([], [sampleScene]), log ++ [WarnNoModels]).
Proof.
  apply (unusable_manifest_yields_no_castles healthyLoader
           (VArray [VNull; VObject [("model"%string, VNum 1)]])).
  reflexivity.
Defined.

(** C9, as the specification has it, fails for an import that is not an
    array but carries the manifest under [default]: the three castles are
    loaded and added to the scene. *)
Lemma wrapped_manifest_is_loaded :
  isArray wrappedManifest = false
  /\ exists groups scene' log,
       run (loadCastlesGroup healthyLoader wrappedManifest [])
       = (Normal (groups, scene'), log)
       /\ length groups = 3%nat
       /\ scene' = groups.
Proof.
  split; [reflexivity|].
  destruct (loadCastlesGroup_placement healthyLoader wrappedManifest [])
    as (groups & scene' & log & E & Hlen & Hscene & _).
  exists groups, scene', log. repeat split; assumption.
Qed.

End LoaderSpec.

(** ** The scene *)

Module SceneFacts.
Import THREE CastlesGroup ModelScene Vocabulary.

(** *** The per-frame animation *)

Lemma forEachFrom_nth {A} (f : A -> nat -> A) l :
  forall i j,
    nth_error (forEachFrom f l i) j
    = option_map (fun a => f a (i + j)%nat) (nth_error l j).
Proof.
  induction l as [|a rest IH]; intros i j; simpl.
  - destruct j; reflexivity.
  - destruct j as [|j]; simpl.
    + rewrite Nat.add_0_r. reflexivity.
    + rewrite IH. replace (i + S j)%nat with (S i + j)%nat by lia.
      reflexivity.
Qed.

Lemma forEachFrom_length {A} (f : A -> nat -> A) l :
  forall i, length (forEachFrom f l i) = length l.
Proof.
  induction l as [|a rest IH]; intros i; simpl; [|rewrite IH]; reflexivity.
Qed.

Lemma forEachFrom_idempotent {A} (f : A -> nat -> A) l :
  (forall a i, f (f a i) i = f a i) ->
  forall i, forEachFrom f (forEachFrom f l i) i = forEachFrom f l i.
Proof.
  intros Hf. induction l as [|a rest IH]; intros i; simpl.
  - reflexivity.
  - rewrite Hf, IH. reflexivity.
Qed.

(** What a frame makes of the group at [index]. *)
Lemma animateCastles_nth castles time i :
  nth_error (animateCastles castles time) i
  = option_map
      (fun castle =>
         set_rotation_x
           (set_rotation_z (set_position_y castle (bob time i))
              (sway_z time i))
           (sway_x time i))
      (nth_error castles i).
Proof.
  unfold animateCastles. rewrite forEachFrom_nth. reflexivity.
Qed.

Lemma animateCastles_idempotent castles time :
  animateCastles (animateCastles castles time) time
  = animateCastles castles time.
Proof.
  unfold animateCastles. apply forEachFrom_idempotent.
  intros [n cs] i. reflexivity.
Qed.

Lemma same_outside_animation_refl g : same_outside_animation g g.
Proof. repeat split. Qed.

Lemma same_outside_animation_trans g1 g2 g3 :
  same_outside_animation g1 g2 ->
  same_outside_animation g2 g3 ->
  same_outside_animation g1 g3.
Proof.
  unfold same_outside_animation.
  intros (A1 & A2 & A3 & A4 & A5 & A6 & A7 & A8 & A9)
         (B1 & B2 & B3 & B4 & B5 & B6 & B7 & B8 & B9).
  repeat split; congruence.
Qed.

Lemma animateCastles_frame castles time i g :
  nth_error castles i = Some g ->
  exists g',
    nth_error (animateCastles castles time) i = Some g'
    /\ same_outside_animation g g'.
Proof.
  intros Hg. rewrite animateCastles_nth, Hg. simpl.
  eexists. split; [reflexivity|].
  destruct g as [n cs]. repeat split.
Qed.

(** *** Events *)

Lemma step_castles width s e :
  castles (step width s e) = castles s
  \/ exists time, castles (step width s e) = animateCastles (castles s) time.
Proof.
  destruct e; simpl; try (left; reflexivity).
  - left. unfold tapGesture, rotateCastle.
    destruct ((0 <=? _) && _)%Z; reflexivity.
  - right. eexists. reflexivity.
Qed.

Lemma run_castles_outside_animation width events :
  forall s i g,
    nth_error (castles s) i = Some g ->
    exists g',
      nth_error (castles (run width s events)) i = Some g'
      /\ same_outside_animation g g'.
Proof.
  unfold run.
  induction events as [|e rest IH]; intros s i g Hg; simpl.
  - exists g. split; [exact Hg | apply same_outside_animation_refl].
  - destruct (step_castles width s e) as [Hsame | (time & Hframe)].
    + apply IH. rewrite Hsame. exact Hg.
    + destruct (animateCastles_frame (castles s) time i g Hg)
        as (g1 & Hg1 & H1).
      rewrite <- Hframe in Hg1.
      destruct (IH _ i g1 Hg1) as (g' & Hg' & H').
      exists g'. split; [exact Hg'|].
      eapply same_outside_animation_trans; eassumption.
Qed.

Lemma run_castles_length width events :
  forall s, length (castles (run width s events)) = length (castles s).
Proof.
  unfold run.
  induction events as [|e rest IH]; intros s; simpl; [reflexivity|].
  rewrite IH.
  destruct (step_castles width s e) as [-> | (time & ->)];
    [reflexivity|].
  unfold animateCastles. apply forEachFrom_length.
Qed.

(** *** The tap rotations *)

Lemma add_at_length a : forall k d, length (add_at a k d) = length a.
Proof.
  induction a as [|v rest IH]; intros [|k] d; simpl;
    try rewrite IH; reflexivity.
Qed.

Lemma add_at_same a : forall k d,
  (k < length a)%nat -> nth k (add_at a k d) 0 = nth k a 0 + d.
Proof.
  induction a as [|v rest IH]; intros [|k] d Hk; simpl in *; try lia.
  - reflexivity.
  - apply IH. lia.
Qed.

Lemma add_at_other a : forall k j d,
  j <> k -> nth j (add_at a k d) 0 = nth j a 0.
Proof.
  induction a as [|v rest IH]; intros [|k] [|j] d Hjk; simpl;
    try reflexivity; try congruence.
  apply IH. congruence.
Qed.

Lemma step_rotations_length width s e :
  length (castleRotationsRef (step width s e)) = length (castleRotationsRef s).
Proof.
  destruct e; simpl; try reflexivity.
  unfold tapGesture, rotateCastle.
  destruct ((0 <=? _) && _)%Z; simpl; [apply add_at_length | reflexivity].
Qed.

Lemma run_rotations_length width events :
  forall s,
    length (castleRotationsRef (run width s events))
    = length (castleRotationsRef s).
Proof.
  unfold run.
  induction events as [|e rest IH]; intros s; simpl; [reflexivity|].
  rewrite IH. apply step_rotations_length.
Qed.

Lemma tappedCastle_band width x :
  (tappedCastle width x = 0 \/ tappedCastle width x = 1
   \/ tappedCastle width x = 2)%Z.
Proof.
  unfold tappedCastle.
  destruct (Rlt_dec x (width / 3)); [tauto|].
  destruct (Rlt_dec x (2 * width / 3)); tauto.
Qed.

(** *** The camera *)

Lemma clamp_in_range lo hi v :
  lo <= hi -> lo <= Rmax lo (Rmin hi v) <= hi.
Proof.
  intros H. unfold Rmax, Rmin.
  destruct (Rle_dec hi v); destruct (Rle_dec lo _); lra.
Qed.

Lemma lerp_in_range lo hi current target :
  lo <= current <= hi -> lo <= target <= hi ->
  lo <= current + (target - current) * 0.15 <= hi.
Proof. intros. lra. Qed.

Lemma pitch_limit_pos : 0 < PI / 2.5.
Proof. pose proof PI_RGT_0. lra. Qed.

Lemma initial_in_range loaded : camera_in_range (initial loaded).
Proof.
  pose proof pitch_limit_pos.
  unfold camera_in_range, PITCH_LIMIT, initial, CAMERA_MIN_DISTANCE,
    CAMERA_MAX_DISTANCE, CAMERA_DEFAULT_DISTANCE; simpl.
  repeat split; lra.
Qed.

Lemma step_in_range width s e :
  camera_in_range s -> camera_in_range (step width s e).
Proof.
  pose proof pitch_limit_pos as Hpi.
  unfold camera_in_range, PITCH_LIMIT, CAMERA_MIN_DISTANCE,
    CAMERA_MAX_DISTANCE.
  intros (Htd & Hd & Htp & Hp).
  destruct e; simpl; try (repeat split; tauto).
  - (* pan update *)
    split; [tauto|]. split; [tauto|]. split; [|tauto].
    replace (- PI / 2.5) with (- (PI / 2.5)) by lra.
    apply clamp_in_range. lra.
  - (* pinch update *)
    split; [|tauto].
    unfold CAMERA_MIN_DISTANCE, CAMERA_MAX_DISTANCE.
    apply clamp_in_range. lra.
  - (* tap *)
    unfold tapGesture, rotateCastle.
    destruct ((0 <=? _) && _)%Z; simpl; repeat split; tauto.
  - (* reset *)
    unfold CAMERA_DEFAULT_DISTANCE. repeat split; try tauto; lra.
  - (* frame *)
    split; [tauto|]. split; [|split; [tauto|]].
    + apply lerp_in_range; tauto.
    + apply lerp_in_range; tauto.
Qed.

Lemma run_in_range width events :
  forall s, camera_in_range s -> camera_in_range (run width s events).
Proof.
  unfold run.
  induction events as [|e rest IH]; intros s Hs; simpl; [exact Hs|].
  apply IH, step_in_range, Hs.
Qed.

End SceneFacts.

(** ** What the specification says of the scene *)

Module SceneSpec.
Import THREE CastlesGroup ModelScene Vocabulary SceneFacts.

(** C2.  From the default camera (distance 50, rotation (0,0)), after any
    finite sequence of gesture events, resets and frames whose pinch
    updates report a scale other than 0, the target and the current
    distance lie in [35, 80] and the target and the current pitch lie in
    [-PI/2.5, PI/2.5]. *)
Theorem camera_stays_in_range width loaded events :
  pinchScalesNonzero events ->
  let s := run width (initial loaded) events in
  (CAMERA_MIN_DISTANCE = 35 /\ CAMERA_MAX_DISTANCE = 80)
  /\ CAMERA_MIN_DISTANCE <= targetCameraDistanceRef s <= CAMERA_MAX_DISTANCE
  /\ CAMERA_MIN_DISTANCE <= cameraDistanceRef s <= CAMERA_MAX_DISTANCE
  /\ - (PI / 2.5) <= rot_x (targetCameraRotationRef s) <= PI / 2.5
  /\ - (PI / 2.5) <= rot_x (cameraRotationRef s) <= PI / 2.5.
Proof.
  intros _ s. split; [split; reflexivity|].
  exact (run_in_range width events (initial loaded)
           (initial_in_range loaded)).
Qed.

Lemma camera_stays_in_range_witness :
  (CAMERA_MIN_DISTANCE = 35 /\ CAMERA_MAX_DISTANCE = 80)
  /\ CAMERA_MIN_DISTANCE
     <= targetCameraDistanceRef (run 900 (initial []) sampleRun)
     <= CAMERA_MAX_DISTANCE
  /\ CAMERA_MIN_DISTANCE
     <= cameraDistanceRef (run 900 (initial []) sampleRun)
     <= CAMERA_MAX_DISTANCE
  /\ - (PI / 2.5)
     <= rot_x (targetCameraRotationRef (run 900 (initial []) sampleRun))
     <= PI / 2.5
  /\ - (PI / 2.5)
     <= rot_x (cameraRotationRef (run 900 (initial []) sampleRun))
     <= PI / 2.5.
Proof.
  apply (camera_stays_in_range 900 [] sampleRun).
  unfold pinchScalesNonzero, sampleRun.
  repeat (constructor; try exact I). lra.
Defined.

(** C3, as the code has it.  In any state the scene can reach, a tap at
    [x] picks the band [k] of [x] among the three thirds of the screen
    width, adds exactly PI/4 (an eighth of a turn) to the accumulated
    rotation of item [k], and leaves the other accumulated rotations as
    they were; and [rotateCastle] at an index outside 0, 1, 2 changes
    nothing at all. *)
Theorem tap_spins_only_the_tapped_castle width loaded events x :
  let s := run width (initial loaded) events in
  let k := tappedCastle width x in
  let s' := tapGesture width x s in
  (k = 0 \/ k = 1 \/ k = 2)%Z
  /\ (x < width / 3 -> k = 0%Z)
  /\ (width / 3 <= x -> x < 2 * width / 3 -> k = 1%Z)
  /\ (width / 3 <= x -> 2 * width / 3 <= x -> k = 2%Z)
  /\ nth (Z.to_nat k) (castleRotationsRef s') 0
     = nth (Z.to_nat k) (castleRotationsRef s) 0 + PI / 4
  /\ (forall j, j <> Z.to_nat k ->
        nth j (castleRotationsRef s') 0 = nth j (castleRotationsRef s) 0)
  /\ length (castleRotationsRef s') = 3%nat
  /\ (forall castleIndex s0,
        (castleIndex < 0 \/ 3 <= castleIndex)%Z ->
        rotateCastle castleIndex s0 = s0).
Proof.
  intros s k s'.
  assert (Hlen : length (castleRotationsRef s) = 3%nat).
  { subst s. rewrite run_rotations_length. reflexivity. }
  pose proof (tappedCastle_band width x) as Hk. fold k in Hk.
  assert (Hrot : castleRotationsRef s'
                 = add_at (castleRotationsRef s) (Z.to_nat k) (PI / 4)).
  { subst s'. unfold tapGesture, rotateCastle. fold k.
    destruct Hk as [-> | [-> | ->]]; reflexivity. }
  split; [exact Hk|].
  split; [|split; [|split]].
  - intros Hx. subst k. unfold tappedCastle.
    destruct (Rlt_dec x (width / 3)); [reflexivity | lra].
  - intros H1 H2. subst k. unfold tappedCastle.
    destruct (Rlt_dec x (width / 3)); [lra|].
    destruct (Rlt_dec x (2 * width / 3)); [reflexivity | lra].
  - intros H1 H2. subst k. unfold tappedCastle.
    destruct (Rlt_dec x (width / 3)); [lra|].
    destruct (Rlt_dec x (2 * width / 3)); [lra | reflexivity].
  - rewrite Hrot. split; [|split; [|split]].
    + apply add_at_same. rewrite Hlen. lia.
    + intros j Hj. apply add_at_other. exact Hj.
    + rewrite add_at_length. exact Hlen.
    + intros castleIndex s0 Hout. unfold rotateCastle.
      destruct ((0 <=? castleIndex) && (castleIndex <? 3))%Z eqn:Hin;
        [|reflexivity].
      apply andb_true_iff in Hin as [H1 H2].
      apply Z.leb_le in H1. apply Z.ltb_lt in H2. lia.
Qed.

Lemma tap_spins_only_the_tapped_castle_witness :
  tappedCastle 900 100 = 0%Z
  /\ rotateCastle 7 (initial []) = initial [].
Proof.
  destruct (tap_spins_only_the_tapped_castle 900 [] [] 100)
    as (_ & Hleft & _ & _ & _ & _ & _ & Hout).
  split.
  - apply Hleft. lra.
  - apply Hout. right. lia.
Defined.

(** C3, as the specification has it, fails on the size of the increment:
    one tap on the left band adds PI/4, which is not the quarter turn
    PI/2. *)
Lemma tap_adds_less_than_a_quarter_turn :
  castleRotationsRef (tapGesture 900 100 (initial [])) = [0 + PI / 4; 0; 0]
  /\ 0 + PI / 4 <> 0 + PI / 2.
Proof.
  split.
  - unfold tapGesture, tappedCastle.
    destruct (Rlt_dec 100 (900 / 3)) as [_ | H]; [reflexivity | lra].
  - pose proof PI_RGT_0. lra.
Qed.

(** C8.  The animation call is idempotent: made twice with the same time
    and the same rotation array it leaves the groups as the first call
    did.  The three fields it writes are functions of the time and of the
    index alone, so they do not depend on what the groups were before. *)
Theorem animation_is_idempotent castles time rotations :
  call_animateCastles (call_animateCastles castles time rotations)
    time rotations
  = call_animateCastles castles time rotations
  /\ forall i g,
       nth_error (call_animateCastles castles time rotations) i = Some g ->
       vy (position_of g) = sin (time * 0.4 + INR i * 2.0) * 2.5
       /\ vz (rotation_of g) = sin (time * 0.15 + INR i * 2.0) * 0.02
       /\ vx (rotation_of g) = cos (time * 0.18 + INR i * 2.0 * 0.5) * 0.015.
Proof.
  unfold call_animateCastles. split.
  - apply animateCastles_idempotent.
  - intros i g Hg. rewrite animateCastles_nth in Hg.
    destruct (nth_error castles i) as [[n cs]|]; [|discriminate].
    injection Hg as <-. repeat split.
Qed.

Lemma animation_is_idempotent_witness :
  exists g,
    nth_error (call_animateCastles oneCastle 0 [0; 0; 0]) 0 = Some g
    /\ vy (position_of g) = sin (0 * 0.4 + INR 0 * 2.0) * 2.5.
Proof.
  eexists. split; [reflexivity|].
  apply (proj2 (animation_is_idempotent oneCastle 0 [0; 0; 0]) 0%nat).
  reflexivity.
Defined.

(** C10.  A frame keeps the number of groups and, in every group, all
    but [position.y], [rotation.x] and [rotation.z]: [position.x],
    [position.z], the scale and the children are as before (and so are
    the name, the geometry, the material and [rotation.y]).  Hence the
    same holds between the castles as loaded and the castles after any
    sequence of frames and gestures. *)
Theorem animation_keeps_placement_and_scale :
  (forall castles time,
     length (animateCastles castles time) = length castles
     /\ forall i g,
          nth_error castles i = Some g ->
          exists g',
            nth_error (animateCastles castles time) i = Some g'
            /\ same_outside_animation g g')
  /\ (forall width loaded events,
        length (castles (run width (initial loaded) events)) = length loaded
        /\ forall i g,
             nth_error loaded i = Some g ->
             exists g',
               nth_error (castles (run width (initial loaded) events)) i
               = Some g'
               /\ same_outside_animation g g').
Proof.
  split.
  - intros castles time. split.
    + unfold animateCastles. apply forEachFrom_length.
    + intros i g. apply animateCastles_frame.
  - intros width loaded events. split.
    + rewrite run_castles_length. reflexivity.
    + intros i g Hg.
      apply (run_castles_outside_animation width events (initial loaded)).
      exact Hg.
Qed.

Lemma animation_keeps_placement_and_scale_witness :
  exists g',
    nth_error (animateCastles oneCastle 1) 0 = Some g'
    /\ same_outside_animation (placed (createFallbackCastle 0) 0) g'.
Proof.
  apply (proj2 (proj1 animation_keeps_placement_and_scale oneCastle 1) 0%nat).
  reflexivity.
Defined.

(** C5, on the code.  The rotation array handed to the animation call has
    no effect on its result, and [rotation.y] of every castle stays what
    it was when the castle was loaded.  So after a tap on the left band
    and a frame, the accumulated rotation of castle 0 is PI/4 while its
    [rotation.y] is still 0, as without the tap. *)
Theorem tap_rotation_never_reaches_the_castles :
  (forall castles time rotations rotations',
     call_animateCastles castles time rotations
     = call_animateCastles castles time rotations')
  /\ (forall width loaded events i g,
        nth_error loaded i = Some g ->
        exists g',
          nth_error (castles (run width (initial loaded) events)) i = Some g'
          /\ vy (rotation_of g') = vy (rotation_of g))
  /\ castleRotationsRef (run 900 (initial oneCastle) [Tap 100; Frame])
     = [0 + PI / 4; 0; 0]
  /\ List.map (fun g => vy (rotation_of g))
       (castles (run 900 (initial oneCastle) [Tap 100; Frame]))
     = [0]
  /\ List.map (fun g => vy (rotation_of g))
       (castles (run 900 (initial oneCastle) [Frame]))
     = [0].
Proof.
  split; [reflexivity|]. split.
  - intros width loaded events i g Hg.
    destruct (run_castles_outside_animation width events (initial loaded)
                i g Hg) as (g' & Hg' & Hsame).
    exists g'. split; [exact Hg'|]. apply Hsame.
  - unfold run. simpl fold_left. unfold tapGesture, tappedCastle.
    destruct (Rlt_dec 100 (900 / 3)) as [_ | H]; [|lra].
    repeat split.
Qed.

End SceneSpec.

(** ** More on the loader *)

Module LoaderMore.
Import JS THREE CastlesGroup Vocabulary Shape LoaderFacts.

(** *** Textures *)

(** X1.  Loading the textures of a model never throws.  Every declared
    texture gets a slot, in order; a slot is empty exactly when the
    platform loader threw for that texture, and each empty slot costs
    exactly one console error, so loaded textures and errors add up to
    the number declared. *)
Theorem textures_settle_one_by_one L items :
  forall idx log,
  exists settled errs,
    loadTextures L items idx log = (Normal settled, log ++ errs)
    /\ length settled = length items
    /\ (length (filterBoolean settled) + length errs = length items)%nat
    /\ Forall (fun ev =>
                 exists i, ev = ErrTextureFailed i
                           /\ (idx <= i < idx + length items)%nat) errs
    /\ forall j res,
         nth_error items j = Some res ->
         exists slot,
           nth_error settled j = Some slot
           /\ (slot = None <-> exists e, loadTextureAsync L res = Throw e).
Proof.
  induction items as [|tex rest IH]; intros idx log; simpl.
  - exists [], []. unfold ret. rewrite app_nil_r.
    repeat split; auto. intros [|j] res H; discriminate.
  - unfold bind at 1. rewrite loadTextureOptimized_settles.
    destruct (loadTextureAsync L tex) as [raw | e] eqn:Hload.
    + destruct (IH (S idx) log) as (settled & errs & E & Hlen & Hsum & Herrs & Hslots).
      unfold bind at 1. rewrite E.
      eexists (Some _ :: settled), errs. unfold ret.
      split; [reflexivity|]. split; [simpl; congruence|].
      split; [simpl; lia|]. split.
      * eapply Forall_impl; [|exact Herrs].
        intros ev (i & -> & Hi). exists i. split; [reflexivity | lia].
      * intros [|j] res Hres; simpl in *.
        -- injection Hres as <-. eexists. split; [reflexivity|].
           split; [discriminate|]. intros (e & He). congruence.
        -- apply Hslots. exact Hres.
    + destruct (IH (S idx) (log ++ [ErrTextureFailed idx]))
        as (settled & errs & E & Hlen & Hsum & Herrs & Hslots).
      unfold bind at 1. rewrite E.
      exists (None :: settled), (ErrTextureFailed idx :: errs). unfold ret.
      split; [rewrite <- app_assoc; reflexivity|].
      split; [simpl; congruence|].
      split; [simpl; lia|]. split.
      * constructor.
        -- exists idx. split; [reflexivity | lia].
        -- eapply Forall_impl; [|exact Herrs].
           intros ev (i & -> & Hi). exists i. split; [reflexivity | lia].
      * intros [|j] res Hres; simpl in *.
        -- injection Hres as <-. exists None. split; [reflexivity|].
           split; [intros _; exists e; exact Hload | reflexivity].
        -- apply Hslots. exact Hres.
Qed.

(** *** Traversal *)

Lemma countMeshes_node n cs :
  countMeshes (Obj n cs)
  = ((if texturable n then 1 else 0)
     + length (filter texturable (flat_map nodes cs)))%nat.
Proof. unfold countMeshes. simpl. destruct (texturable n); reflexivity. Qed.

Lemma countMeshes_children c rest :
  length (filter texturable (flat_map nodes (c :: rest)))
  = (countMeshes c + length (filter texturable (flat_map nodes rest)))%nat.
Proof. simpl. rewrite filter_app, length_app. reflexivity. Qed.

Lemma applyTexturesToMesh_shape mesh g textures meshIndex log :
  geometry mesh = Some g ->
  exists mesh' w,
    applyTexturesToMesh mesh textures meshIndex log = (Normal mesh', log ++ w)
    /\ with_material mesh' NoMaterial = with_material mesh NoMaterial
    /\ (length w <= 1)%nat.
Proof.
  intros Hg. unfold applyTexturesToMesh. rewrite Hg.
  destruct (hasUV g); simpl.
  - destruct textures as [|a [|b [|c rest]]];
      try (exists mesh; eexists; split; [reflexivity|];
           split; [reflexivity | simpl; lia]).
    eexists. exists []. unfold ret. rewrite app_nil_r.
    split; [reflexivity|]. split; [reflexivity | simpl; lia].
  - exists mesh. eexists. split; [reflexivity|].
    split; [reflexivity | simpl; lia].
Qed.

Lemma visit_shape textures n k log :
  exists n' w,
    visit textures n k log
    = (Normal (n', (k + if texturable n then 1 else 0)%nat), log ++ w)
    /\ with_material n' NoMaterial = with_material n NoMaterial
    /\ (length w <= if texturable n then 1 else 0)%nat.
Proof.
  unfold visit, texturable.
  destruct (isMesh n); [destruct (geometry n) as [g|] eqn:Hg|].
  - destruct (applyTexturesToMesh_shape n g textures k log Hg)
      as (n' & w & E & Hsame & Hw).
    exists n', w. unfold bind. rewrite E. unfold ret.
    replace (k + 1)%nat with (S k) by lia. auto.
  - exists n, []. unfold ret. rewrite app_nil_r, Nat.add_0_r. auto.
  - exists n, []. unfold ret. rewrite app_nil_r, Nat.add_0_r. auto.
Qed.

(** X2.  Traversing a loaded scene never throws: it visits every node,
    advances the mesh counter by the number of meshes that have a
    geometry, logs at most one message per such mesh, and returns a scene
    that differs from the one it was given in materials only. *)
Theorem traverse_changes_materials_only textures o :
  forall k log,
  exists o' w,
    traverse textures o k log
    = (Normal (o', (k + countMeshes o)%nat), log ++ w)
    /\ skeleton o' = skeleton o
    /\ (length w <= countMeshes o)%nat.
Proof.
  induction o as [n cs IH] using Object3D_tree_ind.
  intros k log. simpl traverse.
  destruct (visit_shape textures n k log) as (n' & w0 & Ev & Hn & Hw0).
  unfold bind at 1. rewrite Ev. simpl fst; simpl snd.
  assert (Hcs : forall k log, exists cs' w,
    (fix each (cs : list Object3D) (k : nat)
       : IO (list Object3D * nat) :=
       match cs with
       | [] => ret ([], k)
       | c :: rest =>
           rc <- traverse textures c k ;;
           rr <- each rest (snd rc) ;;
           ret (fst rc :: fst rr, snd rr)
       end) cs k log
    = (Normal (cs', (k + length (filter texturable (flat_map nodes cs)))%nat),
       log ++ w)
    /\ List.map skeleton cs' = List.map skeleton cs
    /\ (length w <= length (filter texturable (flat_map nodes cs)))%nat).
  { clear k log Ev. induction IH as [|c rest Hc _ IHrest]; intros k log.
    - exists [], []. unfold ret. simpl. rewrite app_nil_r, Nat.add_0_r. auto.
    - destruct (Hc k log) as (c' & wc & Ec & Sc & Lc).
      destruct (IHrest (k + countMeshes c)%nat (log ++ wc))
        as (rest' & wr & Er & Sr & Lr).
      exists (c' :: rest'), (wc ++ wr).
      unfold bind at 1. rewrite Ec. simpl snd.
      unfold bind at 1. rewrite Er. unfold ret. simpl fst; simpl snd.
      rewrite countMeshes_children, app_assoc, Nat.add_assoc.
      split; [reflexivity|]. split.
      + simpl. rewrite Sc, Sr. reflexivity.
      + rewrite length_app. lia. }
  destruct (Hcs (k + if texturable n then 1 else 0)%nat (log ++ w0))
    as (cs' & w1 & E1 & S1 & L1).
  exists (Obj n' cs'), (w0 ++ w1).
  unfold bind at 1. rewrite E1. unfold ret. simpl fst; simpl snd.
  rewrite countMeshes_node, app_assoc, Nat.add_assoc.
  split; [reflexivity|]. split.
  - simpl. rewrite Hn, S1. reflexivity.
  - rewrite length_app. lia.
Qed.

(** *** Texturing with a full set *)

Lemma visit_retextures nm cm mr more n k log :
  exists n' k' log',
    visit (nm :: cm :: mr :: more) n k log = (Normal (n', k'), log')
    /\ retextured nm cm mr n n'.
Proof.
  unfold visit, retextured, uvMapped.
  destruct (isMesh n); [destruct (geometry n) as [g|] eqn:Hg|].
  - unfold bind, applyTexturesToMesh. rewrite Hg.
    destruct (hasUV g); simpl; eexists _, _, _; split; reflexivity.
  - eexists _, _, _. split; reflexivity.
  - eexists _, _, _. split; reflexivity.
Qed.

Lemma traverse_retextures nm cm mr more o :
  forall k log,
  exists o' k' log',
    traverse (nm :: cm :: mr :: more) o k log = (Normal (o', k'), log')
    /\ Forall2 (retextured nm cm mr) (nodes o) (nodes o').
Proof.
  induction o as [n cs IH] using Object3D_tree_ind.
  intros k log. simpl traverse.
  destruct (visit_retextures nm cm mr more n k log)
    as (n' & k0 & log0 & Ev & Hn).
  unfold bind at 1. rewrite Ev. simpl fst; simpl snd.
  assert (Hcs : forall k log, exists cs' k' log',
    (fix each (cs : list Object3D) (k : nat)
       : IO (list Object3D * nat) :=
       match cs with
       | [] => ret ([], k)
       | c :: rest =>
           rc <- traverse (nm :: cm :: mr :: more) c k ;;
           rr <- each rest (snd rc) ;;
           ret (fst rc :: fst rr, snd rr)
       end) cs k log
    = (Normal (cs', k'), log')
    /\ Forall2 (retextured nm cm mr)
         (flat_map nodes cs) (flat_map nodes cs')).
  { clear k log Ev. induction IH as [|c rest Hc _ IHrest]; intros k log.
    - exists [], k, log. split; [reflexivity | constructor].
    - destruct (Hc k log) as (c' & kc & logc & Ec & Fc).
      destruct (IHrest kc logc) as (rest' & kr & logr & Er & Fr).
      exists (c' :: rest'), kr, logr.
      unfold bind at 1. rewrite Ec. simpl snd.
      unfold bind at 1. rewrite Er. unfold ret. simpl fst; simpl snd.
      split; [reflexivity|]. simpl. apply Forall2_app; assumption. }
  destruct (Hcs k0 log0) as (cs' & k1 & log1 & E1 & F1).
  exists (Obj n' cs'), k1, log1.
  unfold bind at 1. rewrite E1. unfold ret. simpl fst; simpl snd.
  split; [reflexivity|]. simpl. constructor; assumption.
Qed.

(** A castle whose first three loaded textures are [nm], [cm], [mr]. *)
Lemma loadSingleCastle_textured
    L castleData castleIndex totalCastles items settled log log1
    nm cm mr more scene :
  prop castleData "textures" = VArray items ->
  loadTextures L items 0 log = (Normal settled, log1) ->
  filterBoolean settled = nm :: cm :: mr :: more ->
  loadAsync L (prop castleData "model") = Normal (GltfScene scene) ->
  exists scene' log',
    loadSingleCastle L castleData castleIndex totalCastles log
    = (Normal (Some (add newGroup scene')), log')
    /\ Forall2 (retextured nm cm mr) (nodes scene) (nodes scene').
Proof.
  intros Htex Hsettled Hloaded Hmodel.
  unfold loadSingleCastle, try_catch. rewrite Htex.
  unfold bind at 1. unfold ret at 1.
  unfold bind at 1. rewrite Hsettled, Hloaded.
  change (length (nm :: cm :: mr :: more) =? 0)%nat with false. cbv iota.
  unfold bind at 1. unfold lift. rewrite Hmodel.
  destruct (traverse_retextures nm cm mr more scene 0%nat log1)
    as (scene' & k' & log' & Etr & F).
  unfold bind at 1. rewrite Etr.
  exists scene', log'. split; [reflexivity | exact F].
Qed.

(** X3.  When a model declares three textures and all three load, every
    UV-mapped mesh of the loaded scene gets a standard material whose
    normal map is the first texture (linear), whose colour map is the
    second (sRGB) and whose metalness and roughness maps are both the
    third (linear), an array of materials staying an array; every other
    node is left as it was. *)
Theorem three_textures_land_on_their_channels
    L castleData castleIndex totalCastles a b c ta tb tc scene log :
  prop castleData "textures" = VArray [a; b; c] ->
  loadTextureAsync L a = Normal ta ->
  loadTextureAsync L b = Normal tb ->
  loadTextureAsync L c = Normal tc ->
  loadAsync L (prop castleData "model") = Normal (GltfScene scene) ->
  exists nm cm mr scene' log',
    loadSingleCastle L castleData castleIndex totalCastles log
    = (Normal (Some (add newGroup scene')), log')
    /\ configured nm NoColorSpace (image ta)
    /\ configured cm SRGBColorSpace (image tb)
    /\ configured mr NoColorSpace (image tc)
    /\ Forall2 (retextured nm cm mr) (nodes scene) (nodes scene').
Proof.
  intros Htex Ha Hb Hc Hmodel.
  assert (Hsettled : exists nm cm mr,
    loadTextures L [a; b; c] 0 log = (Normal [Some nm; Some cm; Some mr], log)
    /\ configured nm NoColorSpace (image ta)
    /\ configured cm SRGBColorSpace (image tb)
    /\ configured mr NoColorSpace (image tc)).
  { simpl loadTextures. unfold bind.
    rewrite loadTextureOptimized_settles, Ha. cbv beta iota.
    rewrite loadTextureOptimized_settles, Hb. cbv beta iota.
    rewrite loadTextureOptimized_settles, Hc. cbv beta iota.
    unfold ret.
    eexists _, _, _. split; [reflexivity|].
    repeat split. }
  destruct Hsettled as (nm & cm & mr & E & Hn & Hcm & Hmr).
  destruct (loadSingleCastle_textured L castleData castleIndex totalCastles
              [a; b; c] _ log log nm cm mr [] scene Htex E eq_refl Hmodel)
    as (scene' & log' & Eres & F).
  exists nm, cm, mr, scene', log'. auto.
Qed.

Lemma three_textures_land_on_their_channels_witness :
  exists nm cm mr scene' log',
    loadSingleCastle healthyLoader (castleEntry 1 2 3 4) 0 3 []
    = (Normal (Some (add newGroup scene')), log')
    /\ configured nm NoColorSpace 2
    /\ configured cm SRGBColorSpace 3
    /\ configured mr NoColorSpace 4
    /\ Forall2 (retextured nm cm mr) (nodes sampleScene) (nodes scene').
Proof.
  exact (three_textures_land_on_their_channels
           healthyLoader (castleEntry 1 2 3 4) 0%nat 3%nat
           (VNum 2) (VNum 3) (VNum 4)
           (rawTexture 2) (rawTexture 3) (rawTexture 4) sampleScene []
           eq_refl eq_refl eq_refl eq_refl eq_refl).
Defined.

(** X4.  Loaded textures are used by rank, not by declared index: when a
    model declares four textures, the first fails and the other three
    load, the meshes are textured all the same, with the texture declared
    second (configured as the sRGB colour texture) as normal map and the
    texture declared third (configured as linear data) as colour map. *)
Theorem failed_texture_shifts_the_channels
    L castleData castleIndex totalCastles a b c d e tb tc td scene log :
  prop castleData "textures" = VArray [a; b; c; d] ->
  loadTextureAsync L a = Throw e ->
  loadTextureAsync L b = Normal tb ->
  loadTextureAsync L c = Normal tc ->
  loadTextureAsync L d = Normal td ->
  loadAsync L (prop castleData "model") = Normal (GltfScene scene) ->
  exists nm cm mr scene' log',
    loadSingleCastle L castleData castleIndex totalCastles log
    = (Normal (Some (add newGroup scene')), log')
    /\ configured nm SRGBColorSpace (image tb)
    /\ configured cm NoColorSpace (image tc)
    /\ configured mr (colorSpace td) (image td)
    /\ Forall2 (retextured nm cm mr) (nodes scene) (nodes scene').
Proof.
  intros Htex Ha Hb Hc Hd Hmodel.
  assert (Hsettled : exists nm cm mr,
    loadTextures L [a; b; c; d] 0 log
    = (Normal [None; Some nm; Some cm; Some mr], log ++ [ErrTextureFailed 0])
    /\ configured nm SRGBColorSpace (image tb)
    /\ configured cm NoColorSpace (image tc)
    /\ configured mr (colorSpace td) (image td)).
  { simpl loadTextures. unfold bind.
    rewrite loadTextureOptimized_settles, Ha. cbv beta iota.
    rewrite loadTextureOptimized_settles, Hb. cbv beta iota.
    rewrite loadTextureOptimized_settles, Hc. cbv beta iota.
    rewrite loadTextureOptimized_settles, Hd. cbv beta iota.
    unfold ret.
    eexists _, _, _. split; [reflexivity|].
    repeat split. }
  destruct Hsettled as (nm & cm & mr & E & Hn & Hcm & Hmr).
  destruct (loadSingleCastle_textured L castleData castleIndex totalCastles
              [a; b; c; d] _ log _ nm cm mr [] scene Htex E eq_refl Hmodel)
    as (scene' & log' & Eres & F).
  exists nm, cm, mr, scene', log'. auto.
Qed.

Lemma failed_texture_shifts_the_channels_witness :
  exists nm cm mr scene' log',
    loadSingleCastle firstTextureMissing
      (VObject [ ("model"%string, VNum 1);
                 ("textures"%string,
                  VArray [VNum 2; VNum 3; VNum 4; VNum 5]) ]) 0 1 []
    = (Normal (Some (add newGroup scene')), log')
    /\ configured nm SRGBColorSpace 3
    /\ configured cm NoColorSpace 4
    /\ configured mr NoColorSpace 5
    /\ Forall2 (retextured nm cm mr) (nodes sampleScene) (nodes scene').
Proof.
  exact (failed_texture_shifts_the_channels
           firstTextureMissing
           (VObject [ ("model"%string, VNum 1);
                      ("textures"%string,
                       VArray [VNum 2; VNum 3; VNum 4; VNum 5]) ])
           0%nat 1%nat (VNum 2) (VNum 3) (VNum 4) (VNum 5)
           "texture unavailable"
           (rawTexture 3) (rawTexture 4) (rawTexture 5) sampleScene []
           eq_refl eq_refl eq_refl eq_refl eq_refl eq_refl).
Defined.

(** *** What a returned group tells *)

Lemma textures_slots L items :
  forall idx log,
  exists settled log1,
    loadTextures L items idx log = (Normal settled, log1)
    /\ forall j slot,
         nth_error settled j = Some slot ->
         exists res,
           nth_error items j = Some res
           /\ (slot <> None -> exists raw, loadTextureAsync L res = Normal raw).
Proof.
  induction items as [|tex rest IH]; intros idx log; simpl.
  - exists [], log. split; [reflexivity|]. intros [|j] slot H; discriminate.
  - unfold bind at 1. rewrite loadTextureOptimized_settles.
    destruct (loadTextureAsync L tex) as [raw | e] eqn:Hload.
    + destruct (IH (S idx) log) as (settled & log1 & E & Hslots).
      unfold bind at 1. rewrite E. eexists _, _. split; [reflexivity|].
      intros [|j] slot Hj; simpl in *.
      * exists tex. split; [reflexivity|]. intros _. exists raw. exact Hload.
      * apply Hslots. exact Hj.
    + destruct (IH (S idx) (log ++ [ErrTextureFailed idx]))
        as (settled & log1 & E & Hslots).
      unfold bind at 1. rewrite E. eexists _, _. split; [reflexivity|].
      intros [|j] slot Hj; simpl in *.
      * exists tex. split; [reflexivity|]. injection Hj as <-. congruence.
      * apply Hslots. exact Hj.
Qed.

Lemma traverse_shape textures o k log :
  exists o' log',
    traverse textures o k log = (Normal (o', (k + countMeshes o)%nat), log')
    /\ skeleton o' = skeleton o.
Proof.
  revert k log. induction o as [n cs IH] using Object3D_tree_ind.
  intros k log. simpl traverse.
  destruct (visit_shape textures n k log) as (n' & w0 & Ev & Hn & _).
  unfold bind at 1. rewrite Ev. simpl fst; simpl snd.
  assert (Hcs : forall k log, exists cs' log',
    (fix each (cs : list Object3D) (k : nat)
       : IO (list Object3D * nat) :=
       match cs with
       | [] => ret ([], k)
       | c :: rest =>
           rc <- traverse textures c k ;;
           rr <- each rest (snd rc) ;;
           ret (fst rc :: fst rr, snd rr)
       end) cs k log
    = (Normal (cs', (k + length (filter texturable (flat_map nodes cs)))%nat),
       log')
    /\ List.map skeleton cs' = List.map skeleton cs).
  { clear k log Ev. induction IH as [|c rest Hc _ IHrest]; intros k log.
    - exists [], log. unfold ret. simpl. rewrite Nat.add_0_r. auto.
    - destruct (Hc k log) as (c' & logc & Ec & Sc).
      destruct (IHrest (k + countMeshes c)%nat logc)
        as (rest' & logr & Er & Sr).
      exists (c' :: rest'), logr.
      unfold bind at 1. rewrite Ec. simpl snd.
      unfold bind at 1. rewrite Er. unfold ret. simpl fst; simpl snd.
      rewrite countMeshes_children, Nat.add_assoc.
      split; [reflexivity|]. simpl. rewrite Sc, Sr. reflexivity. }
  destruct (Hcs (k + if texturable n then 1 else 0)%nat (log ++ w0))
    as (cs' & log1 & E1 & S1).
  exists (Obj n' cs'), log1.
  unfold bind at 1. rewrite E1. unfold ret. simpl fst; simpl snd.
  rewrite countMeshes_node, Nat.add_assoc.
  split; [reflexivity|]. simpl. rewrite Hn, S1. reflexivity.
Qed.

Lemma filterBoolean_member {A} (settled : list (option A)) :
  filterBoolean settled <> [] ->
  exists j a, nth_error settled j = Some (Some a).
Proof.
  induction settled as [|[a|] rest IH]; simpl; intros H.
  - congruence.
  - exists 0%nat, a. reflexivity.
  - destruct (IH H) as (j & a & Hj). exists (S j), a. exact Hj.
Qed.

(** X5.  [loadSingleCastle] returns a group only when the textures were
    declared as an array, at least one of them loaded, and the scene
    graph loaded with a scene root; the group is then a fresh group whose
    only child is that scene, changed in materials at most. *)
Theorem a_group_means_the_model_loaded
    L castleData castleIndex totalCastles log g log' :
  loadSingleCastle L castleData castleIndex totalCastles log
  = (Normal (Some g), log') ->
  exists items res raw scene scene',
    prop castleData "textures" = VArray items
    /\ In res items
    /\ loadTextureAsync L res = Normal raw
    /\ loadAsync L (prop castleData "model") = Normal (GltfScene scene)
    /\ g = Obj (self_of newGroup) [scene']
    /\ skeleton scene' = skeleton scene.
Proof.
  unfold loadSingleCastle, try_catch.
  destruct (prop castleData "textures") as [| | b | n | s | items | fields];
    try (unfold bind, throw, console, ret; simpl; discriminate).
  unfold bind at 1. unfold ret at 1. unfold bind at 1.
  destruct (textures_slots L items 0%nat log)
    as (settled & log1 & E & Hslots).
  rewrite E.
  destruct (length (filterBoolean settled) =? 0)%nat eqn:Hz.
  { unfold bind, console, ret. simpl. discriminate. }
  unfold bind at 1. unfold lift.
  destruct (loadAsync L (prop castleData "model")) as [[| | scene] | e];
    try (unfold bind, console, ret; simpl; discriminate).
  destruct (traverse_shape (filterBoolean settled) scene 0%nat log1)
    as (scene' & log2 & Etr & Hsk).
  unfold bind at 1. rewrite Etr. unfold ret. simpl fst.
  intros H. injection H as <- _.
  assert (Hne : filterBoolean settled <> []).
  { intros Hnil. rewrite Hnil in Hz. discriminate. }
  destruct (filterBoolean_member settled Hne) as (j & a & Hj).
  destruct (Hslots j (Some a) Hj) as (res & Hres & Hload).
  destruct Hload as (raw & Hraw); [discriminate|].
  exists items, res, raw, scene, scene'.
  split; [reflexivity|]. split; [eapply nth_error_In; exact Hres|].
  split; [exact Hraw|]. split; [reflexivity|]. split; [reflexivity|exact Hsk].
Qed.

Lemma a_group_means_the_model_loaded_witness :
  exists items res raw scene scene',
    prop (castleEntry 1 2 3 4) "textures" = VArray items
    /\ In res items
    /\ loadTextureAsync oneTextureLoader res = Normal raw
    /\ loadAsync oneTextureLoader (prop (castleEntry 1 2 3 4) "model")
       = Normal (GltfScene scene)
    /\ add newGroup sampleScene = Obj (self_of newGroup) [scene']
    /\ skeleton scene' = skeleton scene.
Proof.
  apply (a_group_means_the_model_loaded
           oneTextureLoader (castleEntry 1 2 3 4) 0%nat 3%nat []
           (add newGroup sampleScene)
           ([ErrTextureFailed 0; ErrTextureFailed 2]
              ++ meshWarnings 1 sampleScene)).
  reflexivity.
Defined.

(** *** The fallback castle *)

(** X6.  Two fallback castles are the same exactly when their indices
    agree modulo 3: the body colour cycles through the palette of three
    distinct colours and nothing else depends on the index. *)
Theorem fallback_palette_cycles i j :
  createFallbackCastle i = createFallbackCastle j
  <-> (i mod 3 = j mod 3)%nat.
Proof.
  unfold createFallbackCastle. change (length colors) with 3%nat.
  split.
  - intros H.
    assert (Hc : nth (i mod 3) colors 0%Z = nth (j mod 3) colors 0%Z).
    { unfold add, newGroup, newMesh, set_position_y in H. simpl in H.
      injection H as H. exact H. }
    pose proof (Nat.mod_upper_bound i 3) as Hi.
    pose proof (Nat.mod_upper_bound j 3) as Hj.
    destruct (i mod 3)%nat as [|[|[|?]]]; try lia;
      destruct (j mod 3)%nat as [|[|[|?]]]; try lia;
      try reflexivity; simpl in Hc; discriminate.
  - intros ->. reflexivity.
Qed.

(** *** The scene handed to the loader *)

Lemma placeFrom_ignores_scene castleGroups :
  forall i scene scene0,
    fst (placeFrom castleGroups i scene)
    = fst (placeFrom castleGroups i scene0).
Proof.
  induction castleGroups as [|g rest IH]; intros i scene scene0; simpl.
  - reflexivity.
  - pose proof (IH (S i)
      (scene ++ [scale_setScalar
                   (position_set g (vx (slot i)) (vy (slot i)) (vz (slot i)))
                   scale_factor])
      (scene0 ++ [scale_setScalar
                    (position_set g (vx (slot i)) (vy (slot i)) (vz (slot i)))
                    scale_factor])) as H.
    destruct (placeFrom rest (S i) (scene ++ _)) as [r1 s1].
    destruct (placeFrom rest (S i) (scene0 ++ _)) as [r2 s2].
    simpl in *. rewrite H. reflexivity.
Qed.

Lemma loadCastlesGroup_any_scene L modelsManifest log :
  exists castleGroups log',
    forall scene,
      loadCastlesGroup L modelsManifest scene log
      = (Normal (placeFrom castleGroups 0 scene), log').
Proof.
  destruct (readManifest_spec modelsManifest log) as (log0 & E0 & _).
  destruct (length (manifestEntries modelsManifest) =? 0)%nat eqn:Hempty.
  - exists [], (log0 ++ [WarnNoModels]). intros scene.
    unfold loadCastlesGroup. unfold bind at 1. rewrite E0, Hempty.
    reflexivity.
  - destruct (loadFrom_spec L (manifestEntries modelsManifest)
                (length (manifestEntries modelsManifest)) 0%nat log0)
      as (groups & log' & E & _).
    exists groups, log'. intros scene.
    unfold loadCastlesGroup. unfold bind at 1. rewrite E0, Hempty.
    unfold bind at 1. rewrite E. reflexivity.
Qed.

(** X7.  [loadCastlesGroup] only appends to the scene: what the scene
    held stays, in order, followed by exactly the returned groups in the
    order returned; and the groups and the console output are the same
    whatever the scene held. *)
Theorem loader_only_appends_to_the_scene L modelsManifest scene :
  exists groups log,
    run (loadCastlesGroup L modelsManifest scene)
    = (Normal (groups, scene ++ groups), log)
    /\ run (loadCastlesGroup L modelsManifest [])
       = (Normal (groups, groups), log).
Proof.
  destruct (loadCastlesGroup_any_scene L modelsManifest []) as (gs & log & E).
  exists (fst (placeFrom gs 0 scene)), log. unfold run. rewrite !E. split.
  - rewrite <- placeFrom_scene, <- surjective_pairing. reflexivity.
  - rewrite (surjective_pairing (placeFrom gs 0 [])).
    rewrite placeFrom_scene. simpl app.
    rewrite (placeFrom_ignores_scene gs 0%nat scene []). reflexivity.
Qed.

(** *** Fallbacks on the console *)

Lemma placed_same_children g i : children_of (placed g i) = children_of g.
Proof. destruct g; reflexivity. Qed.

Lemma loadTextures_notices L items :
  forall idx log,
  exists settled w,
    loadTextures L items idx log = (Normal settled, log ++ w)
    /\ forall j, ~ In (WarnUsingFallback j) w.
Proof.
  induction items as [|tex rest IH]; intros idx log; simpl.
  - exists [], []. unfold ret. rewrite app_nil_r. split; [reflexivity|].
    intros j [].
  - unfold bind at 1. rewrite loadTextureOptimized_settles.
    destruct (loadTextureAsync L tex) as [raw | e].
    + destruct (IH (S idx) log) as (settled & w & E & Hw).
      unfold bind at 1. rewrite E. eexists _, w. split; [reflexivity|exact Hw].
    + destruct (IH (S idx) (log ++ [ErrTextureFailed idx]))
        as (settled & w & E & Hw).
      unfold bind at 1. rewrite E.
      eexists _, (ErrTextureFailed idx :: w).
      split; [unfold ret; rewrite <- app_assoc; reflexivity|].
      intros j [H | H]; [discriminate | exact (Hw j H)].
Qed.

Lemma visit_notices textures n k log :
  exists n' k' w,
    visit textures n k log = (Normal (n', k'), log ++ w)
    /\ forall j, ~ In (WarnUsingFallback j) w.
Proof.
  unfold visit.
  destruct (isMesh n); [destruct (geometry n) as [g|] eqn:Hg|];
    try (exists n, k, []; unfold ret; rewrite app_nil_r;
         split; [reflexivity | intros j []]).
  unfold bind, applyTexturesToMesh. rewrite Hg.
  destruct (hasUV g); simpl.
  - destruct textures as [|a [|b [|c rest]]];
      try (eexists _, _, [_]; split; [reflexivity|];
           intros j [H | []]; discriminate).
    eexists _, _, []. unfold ret. rewrite app_nil_r.
    split; [reflexivity | intros j []].
  - eexists _, _, [_]. split; [reflexivity|].
    intros j [H | []]; discriminate.
Qed.

Lemma traverse_notices textures o :
  forall k log,
  exists o' k' w,
    traverse textures o k log = (Normal (o', k'), log ++ w)
    /\ forall j, ~ In (WarnUsingFallback j) w.
Proof.
  induction o as [n cs IH] using Object3D_tree_ind.
  intros k log. simpl traverse.
  destruct (visit_notices textures n k log) as (n' & k0 & w0 & Ev & H0).
  unfold bind at 1. rewrite Ev. simpl fst; simpl snd.
  assert (Hcs : forall k log, exists cs' k' w,
    (fix each (cs : list Object3D) (k : nat)
       : IO (list Object3D * nat) :=
       match cs with
       | [] => ret ([], k)
       | c :: rest =>
           rc <- traverse textures c k ;;
           rr <- each rest (snd rc) ;;
           ret (fst rc :: fst rr, snd rr)
       end) cs k log
    = (Normal (cs', k'), log ++ w)
    /\ forall j, ~ In (WarnUsingFallback j) w).
  { clear k log Ev. induction IH as [|c rest Hc _ IHrest]; intros k log.
    - exists [], k, []. unfold ret. rewrite app_nil_r.
      split; [reflexivity | intros j []].
    - destruct (Hc k log) as (c' & kc & wc & Ec & Nc).
      destruct (IHrest kc (log ++ wc)) as (rest' & kr & wr & Er & Nr).
      exists (c' :: rest'), kr, (wc ++ wr).
      unfold bind at 1. rewrite Ec. simpl snd.
      unfold bind at 1. rewrite Er. unfold ret. simpl fst; simpl snd.
      rewrite app_assoc. split; [reflexivity|].
      intros j H. apply in_app_or in H as [H | H];
        [exact (Nc j H) | exact (Nr j H)]. }
  destruct (Hcs k0 (log ++ w0)) as (cs' & k1 & w1 & E1 & N1).
  exists (Obj n' cs'), k1, (w0 ++ w1).
  unfold bind at 1. rewrite E1. unfold ret. simpl fst; simpl snd.
  rewrite app_assoc. split; [reflexivity|].
  intros j H. apply in_app_or in H as [H | H];
    [exact (H0 j H) | exact (N1 j H)].
Qed.

Lemma loadSingleCastle_notices L castleData castleIndex totalCastles log :
  exists r w,
    loadSingleCastle L castleData castleIndex totalCastles log
    = (Normal r, log ++ w)
    /\ (forall j, ~ In (WarnUsingFallback j) w)
    /\ (forall g, r = Some g -> length (children_of g) = 1%nat).
Proof.
  unfold loadSingleCastle, try_catch.
  destruct (prop castleData "textures") as [| | b | n | s | items | fields];
    try (exists None, [ErrCastleFailed castleIndex];
         split; [reflexivity|];
         split; [intros j [H | []]; discriminate | discriminate]).
  unfold bind at 1. unfold ret at 1. unfold bind at 1.
  destruct (loadTextures_notices L items 0%nat log) as (settled & w & E & Hw).
  rewrite E.
  destruct (length (filterBoolean settled) =? 0)%nat.
  { exists None, (w ++ [ErrNoTexturesLoaded castleIndex]).
    unfold bind, console, ret. rewrite app_assoc.
    split; [reflexivity|]. split; [|discriminate].
    intros j H. apply in_app_or in H as [H | [H | []]];
      [exact (Hw j H) | discriminate]. }
  unfold bind at 1. unfold lift.
  destruct (loadAsync L (prop castleData "model")) as [[| | scene] | e].
  - exists None, (w ++ [ErrInvalidGLTF castleIndex]).
    unfold bind, console, ret. rewrite app_assoc.
    split; [reflexivity|]. split; [|discriminate].
    intros j H. apply in_app_or in H as [H | [H | []]];
      [exact (Hw j H) | discriminate].
  - exists None, (w ++ [ErrInvalidGLTF castleIndex]).
    unfold bind, console, ret. rewrite app_assoc.
    split; [reflexivity|]. split; [|discriminate].
    intros j H. apply in_app_or in H as [H | [H | []]];
      [exact (Hw j H) | discriminate].
  - destruct (traverse_notices (filterBoolean settled) scene 0%nat (log ++ w))
      as (scene' & k' & w' & Etr & Hw').
    unfold bind at 1. rewrite Etr. unfold ret. simpl fst.
    eexists (Some _), (w ++ w'). rewrite app_assoc.
    split; [reflexivity|]. split.
    + intros j H. apply in_app_or in H as [H | H];
        [exact (Hw j H) | exact (Hw' j H)].
    + intros g Hg. injection Hg as <-. reflexivity.
  - exists None, (w ++ [ErrCastleFailed castleIndex]).
    unfold bind, console, ret. rewrite app_assoc.
    split; [reflexivity|]. split; [|discriminate].
    intros j H. apply in_app_or in H as [H | [H | []]];
      [exact (Hw j H) | discriminate].
Qed.

Lemma fallback_has_two_children i :
  length (children_of (createFallbackCastle i)) = 2%nat.
Proof. reflexivity. Qed.

Lemma loadFrom_notices L manifest total :
  forall i log,
  exists groups w,
    loadFrom L manifest i total log = (Normal groups, log ++ w)
    /\ length groups = length manifest
    /\ forall j,
         In (WarnUsingFallback j) w
         <-> (i <= j)%nat
             /\ nth_error groups (j - i) = Some (createFallbackCastle j).
Proof.
  induction manifest as [|entry rest IH]; intros i log; simpl.
  - exists [], []. unfold ret. rewrite app_nil_r.
    split; [reflexivity|]. split; [reflexivity|].
    intros j. split; [intros [] | intros [_ H]].
    destruct (j - i)%nat; discriminate.
  - unfold bind at 1.
    destruct (loadSingleCastle_notices L entry i total log)
      as (r & w1 & E1 & N1 & Hshape).
    rewrite E1.
    destruct r as [g|].
    + destruct (IH (S i) (log ++ w1)) as (groups & w2 & E2 & Hlen & Hiff).
      exists (g :: groups), (w1 ++ w2).
      unfold bind at 1. unfold ret at 1. unfold bind at 1. rewrite E2.
      unfold ret. rewrite app_assoc.
      split; [reflexivity|]. split; [simpl; congruence|].
      intros j. split.
      * intros H. apply in_app_or in H as [H | H]; [destruct (N1 j H)|].
        apply Hiff in H as [Hle Hnth]. split; [lia|].
        replace (j - i)%nat with (S (j - S i)) by lia. exact Hnth.
      * intros [Hle Hnth]. apply in_or_app. right. apply Hiff.
        destruct (j - i)%nat as [|d] eqn:Hd.
        -- simpl in Hnth. injection Hnth as Hg.
           pose proof (Hshape g eq_refl) as H1. rewrite Hg in H1.
           rewrite fallback_has_two_children in H1. discriminate.
        -- simpl in Hnth. split; [lia|].
           replace (j - S i)%nat with d by lia. exact Hnth.
    + destruct (IH (S i) ((log ++ w1) ++ [WarnUsingFallback i]))
        as (groups & w2 & E2 & Hlen & Hiff).
      exists (createFallbackCastle i :: groups),
             (w1 ++ WarnUsingFallback i :: w2).
      unfold bind at 1. unfold bind at 1. unfold console at 1.
      unfold ret at 1. unfold bind at 1. rewrite E2. unfold ret.
      split.
      { f_equal. rewrite <- !app_assoc. reflexivity. }
      split; [simpl; congruence|].
      intros j. split.
      * intros H. apply in_app_or in H as [H | [H | H]];
          [destruct (N1 j H)| |].
        -- injection H as <-. split; [lia|].
           rewrite Nat.sub_diag. reflexivity.
        -- apply Hiff in H as [Hle Hnth]. split; [lia|].
           replace (j - i)%nat with (S (j - S i)) by lia. exact Hnth.
      * intros [Hle Hnth]. apply in_or_app. right.
        destruct (j - i)%nat as [|d] eqn:Hd.
        -- left. f_equal. lia.
        -- right. apply Hiff. simpl in Hnth. split; [lia|].
           replace (j - S i)%nat with d by lia. exact Hnth.
Qed.

Lemma loadFrom_groups L manifest total :
  forall i log,
  exists groups log',
    loadFrom L manifest i total log = (Normal groups, log')
    /\ forall d g,
         nth_error groups d = Some g ->
         length (children_of g) = 1%nat
         \/ g = createFallbackCastle (i + d).
Proof.
  induction manifest as [|entry rest IH]; intros i log; simpl.
  - exists [], log. split; [reflexivity|]. intros [|d] g H; discriminate.
  - unfold bind at 1.
    destruct (loadSingleCastle_notices L entry i total log)
      as (r & w1 & E1 & _ & Hshape).
    rewrite E1.
    destruct r as [g0|].
    + destruct (IH (S i) (log ++ w1)) as (groups & log' & E2 & Hg).
      exists (g0 :: groups), log'.
      unfold bind at 1. unfold ret at 1. unfold bind at 1. rewrite E2.
      split; [reflexivity|].
      intros [|d] g Hnth; simpl in Hnth.
      * injection Hnth as <-. left. apply Hshape. reflexivity.
      * destruct (Hg d g Hnth) as [H | H]; [left; exact H | right].
        rewrite H. f_equal. lia.
    + destruct (IH (S i) ((log ++ w1) ++ [WarnUsingFallback i]))
        as (groups & log' & E2 & Hg).
      exists (createFallbackCastle i :: groups), log'.
      unfold bind at 1. unfold bind at 1. unfold console at 1.
      unfold ret at 1. unfold bind at 1. rewrite E2.
      split; [reflexivity|].
      intros [|d] g Hnth; simpl in Hnth.
      * injection Hnth as <-. right. rewrite Nat.add_0_r. reflexivity.
      * destruct (Hg d g Hnth) as [H | H]; [left; exact H | right].
        rewrite H. f_equal. lia.
Qed.

(** X20.  The console tells which castles are fallbacks: after
    [loadCastlesGroup], the warning that a fallback is used for index [j]
    has been logged exactly when the group returned at [j] is the
    fallback castle of that index on its slot. *)
Theorem fallbacks_are_announced L modelsManifest scene :
  exists groups scene' log,
    run (loadCastlesGroup L modelsManifest scene)
    = (Normal (groups, scene'), log)
    /\ forall j,
         In (WarnUsingFallback j) log
         <-> nth_error groups j = Some (placed (createFallbackCastle j) j).
Proof.
  unfold run, loadCastlesGroup. unfold bind at 1.
  destruct (readManifest_spec modelsManifest []) as (log0 & E0 & Harr & Hnot).
  rewrite E0.
  assert (H0 : forall j, ~ In (WarnUsingFallback j) log0).
  { destruct (manifestData modelsManifest) eqn:Hd;
      try (rewrite Hnot by (intros items; discriminate);
           intros j [H | []]; discriminate).
    rewrite (Harr _ eq_refl). intros j []. }
  destruct (length (manifestEntries modelsManifest) =? 0)%nat.
  - exists [], scene, (log0 ++ [WarnNoModels]). split; [reflexivity|].
    intros j. split.
    + intros H. apply in_app_or in H as [H | [H | []]];
        [destruct (H0 j H) | discriminate].
    + destruct j; discriminate.
  - destruct (loadFrom_notices L (manifestEntries modelsManifest)
                (length (manifestEntries modelsManifest)) 0%nat log0)
      as (gs & w & E & Hlen & Hiff).
    unfold bind at 1. rewrite E. unfold ret.
    exists (fst (placeFrom gs 0 scene)), (snd (placeFrom gs 0 scene)),
           (log0 ++ w).
    rewrite <- surjective_pairing. split; [reflexivity|].
    intros j. rewrite placeFrom_groups. simpl Nat.add.
    split.
    + intros H. apply in_app_or in H as [H | H]; [destruct (H0 j H)|].
      apply Hiff in H as [_ Hnth]. rewrite Nat.sub_0_r in Hnth.
      rewrite Hnth. reflexivity.
    + intros H. apply in_or_app. right. apply Hiff. split; [lia|].
      rewrite Nat.sub_0_r.
      destruct (nth_error gs j) as [g|] eqn:Hg; [|discriminate].
      simpl in H. injection H as H. f_equal.
      destruct (loadFrom_groups L (manifestEntries modelsManifest)
                  (length (manifestEntries modelsManifest)) 0%nat log0)
        as (gs0 & l0 & E' & Hkind).
      rewrite E in E'. injection E' as <- _.
      destruct (Hkind j g Hg) as [Hone | Hfb]; [|exact Hfb].
      apply (f_equal children_of) in H.
      rewrite !placed_same_children in H. rewrite H in Hone.
      rewrite fallback_has_two_children in Hone. discriminate.
Qed.

End LoaderMore.

(** ** The console patch *)

Module ConsoleFacts.
Import Console.

Lemma prefix_trans p q : forall s,
  String.prefix p q = true -> String.prefix q s = true ->
  String.prefix p s = true.
Proof.
  revert q. induction p as [|a p IH]; intros q s Hpq Hqs;
    [destruct s; reflexivity|].
  destruct q as [|b q]; [discriminate|].
  destruct s as [|c s]; [discriminate|].
  simpl in *.
  destruct (Ascii.ascii_dec a b) as [->|]; [|discriminate].
  destruct (Ascii.ascii_dec b c) as [->|]; [|discriminate].
  eapply IH; eassumption.
Qed.

Lemma includes_shorter p q s :
  String.prefix p q = true -> includes s q = true -> includes s p = true.
Proof.
  intros Hpq. induction s as [|c s IH]; cbn [includes]; intros H;
    apply orb_true_iff in H as [H | H]; apply orb_true_iff.
  - left. exact (prefix_trans p q "" Hpq H).
  - discriminate.
  - left. exact (prefix_trans p q (String c s) Hpq H).
  - right. exact (IH H).
Qed.

(** X8.  The patch is aimed: a message that mentions neither [EXGL:]
    nor [THREE.GLTFLoader] goes through the three patched methods as
    through the original ones; a message that contains
    [EXGL: gl.pixelStorei()] is dropped by all three; and a loader
    message is dropped by [console.error] only when it also says that a
    texture could not be loaded. *)
Theorem suppression_is_aimed c msg out :
  (includes msg "EXGL:" = false ->
   includes msg "THREE.GLTFLoader" = false ->
   log (suppressGLWarnings c) msg out = log c msg out
   /\ warn (suppressGLWarnings c) msg out = warn c msg out
   /\ error (suppressGLWarnings c) msg out = error c msg out)
  /\ (includes msg "EXGL: gl.pixelStorei()" = true ->
      log (suppressGLWarnings c) msg out = out
      /\ warn (suppressGLWarnings c) msg out = out
      /\ error (suppressGLWarnings c) msg out = out)
  /\ (includes msg "EXGL:" = false ->
      includes msg "Couldn't load texture" = false ->
      error (suppressGLWarnings c) msg out = error c msg out).
Proof.
  split; [|split].
  - intros Hex Hgl. simpl.
    destruct (includes msg "EXGL: gl.pixelStorei()") eqn:Hpix.
    + apply (includes_shorter "EXGL:" "EXGL: gl.pixelStorei()" msg eq_refl)
      in Hpix. congruence.
    + rewrite Hgl, Hex. auto.
  - intros Hpix. simpl. rewrite Hpix.
    apply (includes_shorter "EXGL:" "EXGL: gl.pixelStorei()" msg eq_refl)
      in Hpix. rewrite Hpix.
    destruct (includes msg "THREE.GLTFLoader" && _); auto.
  - intros Hex Htex. simpl. rewrite Hex, Htex, andb_false_r. reflexivity.
Qed.

Lemma suppression_is_aimed_witness :
  log (suppressGLWarnings device) "Castle 1 loaded" []
  = log device "Castle 1 loaded" []
  /\ warn (suppressGLWarnings device) "Castle 1 loaded" []
     = warn device "Castle 1 loaded" []
  /\ error (suppressGLWarnings device) "Castle 1 loaded" []
     = error device "Castle 1 loaded" [].
Proof.
  apply (proj1 (suppression_is_aimed device "Castle 1 loaded" []));
    reflexivity.
Defined.

(** X9.  Patching twice is patching once: the loader patches the console
    on every call, and a console patched again delivers and drops exactly
    what the once-patched console does. *)
Theorem suppression_twice_is_once c msg out :
  log (suppressGLWarnings (suppressGLWarnings c)) msg out
  = log (suppressGLWarnings c) msg out
  /\ warn (suppressGLWarnings (suppressGLWarnings c)) msg out
     = warn (suppressGLWarnings c) msg out
  /\ error (suppressGLWarnings (suppressGLWarnings c)) msg out
     = error (suppressGLWarnings c) msg out.
Proof.
  simpl.
  destruct (includes msg "EXGL: gl.pixelStorei()");
    destruct (includes msg "THREE.GLTFLoader"
              && includes msg "Couldn't load texture");
    destruct (includes msg "EXGL:"); auto.
Qed.

End ConsoleFacts.

(** ** More on the scene *)

Module SceneMore.
Import THREE CastlesGroup ModelScene Overlay Vocabulary Shape SceneFacts.

(** *** The loading text *)

Lemma indexOf_absent l x : ~ In x l -> indexOf l x = (-1)%Z.
Proof.
  induction l as [|y rest IH]; intros Hx; simpl; [reflexivity|].
  destruct (String.eqb_spec y x) as [->|Hne].
  - exfalso. apply Hx. left. reflexivity.
  - rewrite IH; [reflexivity|]. intros H. apply Hx. right. exact H.
Qed.

(** X10.  The loading text always moves to one of the five messages.
    From a text that is not one of them it moves to the first; from one
    of them it moves to a different one and is back after five ticks. *)
Theorem loading_text_cycles prev :
  exists next,
    nextLoadingMessage prev = Some next
    /\ In next LOADING_MESSAGES
    /\ (~ In prev LOADING_MESSAGES -> Some next = nth_error LOADING_MESSAGES 0)
    /\ (In prev LOADING_MESSAGES ->
        next <> prev /\ loadingMessageAfter 5 prev = Some prev).
Proof.
  destruct (in_dec string_dec prev LOADING_MESSAGES) as [Hin | Hout].
  - unfold LOADING_MESSAGES in Hin. simpl in Hin.
    destruct Hin as [<- | [<- | [<- | [<- | [<- | []]]]]];
      (eexists; split; [vm_compute; reflexivity|];
       split; [simpl; tauto|];
       split; [intros H; exfalso; apply H; simpl; tauto|];
       intros _; split; [discriminate | vm_compute; reflexivity]).
  - unfold nextLoadingMessage. rewrite (indexOf_absent _ _ Hout).
    eexists. split; [vm_compute; reflexivity|].
    split; [simpl; tauto|]. split; [reflexivity | contradiction].
Qed.

Lemma loading_text_cycles_witness :
  "Crafting floating castles..."%string
  <> "Summoning magical realms..."%string
  /\ loadingMessageAfter 5 "Summoning magical realms..."
     = Some "Summoning magical realms..."%string.
Proof.
  destruct (loading_text_cycles "Summoning magical realms...")
    as (next & Hnext & _ & _ & Hcycle).
  injection Hnext as <-.
  apply Hcycle. simpl. tauto.
Defined.

(** *** Gestures and frames *)

Lemma gesture_leaves_the_view width s e :
  e <> Frame ->
  cameraDistanceRef (step width s e) = cameraDistanceRef s
  /\ cameraRotationRef (step width s e) = cameraRotationRef s
  /\ cameraPosition (step width s e) = cameraPosition s
  /\ castles (step width s e) = castles s
  /\ t (step width s e) = t s
  /\ frameCountRef (step width s e) = frameCountRef s.
Proof.
  intros He. destruct e; try congruence; simpl; auto 10.
  unfold tapGesture, rotateCastle.
  destruct ((0 <=? _) && _)%Z; simpl; auto 10.
Qed.

(** X11.  Gestures and frames write disjoint parts of the state.  A
    gesture event or a reset never moves the camera, the castles or the
    clock: the current distance, the current rotation, the camera
    position, the castles, [t] and the frame counter change on frames
    only.  A frame never touches what gestures set: the targets, the
    pinch reference, the tap rotations and the gesture indicator. *)
Theorem gestures_aim_and_frames_move width s :
  (forall e,
     e <> Frame ->
     cameraDistanceRef (step width s e) = cameraDistanceRef s
     /\ cameraRotationRef (step width s e) = cameraRotationRef s
     /\ cameraPosition (step width s e) = cameraPosition s
     /\ castles (step width s e) = castles s
     /\ t (step width s e) = t s
     /\ frameCountRef (step width s e) = frameCountRef s)
  /\ targetCameraDistanceRef (step width s Frame) = targetCameraDistanceRef s
  /\ targetCameraRotationRef (step width s Frame) = targetCameraRotationRef s
  /\ touchStartDistanceRef (step width s Frame) = touchStartDistanceRef s
  /\ castleRotationsRef (step width s Frame) = castleRotationsRef s
  /\ gestureIndicator (step width s Frame) = gestureIndicator s.
Proof.
  split; [intros e He; apply gesture_leaves_the_view; exact He|].
  simpl. auto.
Qed.

Lemma gestures_aim_and_frames_move_witness :
  cameraDistanceRef (step 900 (initial []) (PinchUpdate 2))
  = cameraDistanceRef (initial [])
  /\ cameraRotationRef (step 900 (initial []) (PinchUpdate 2))
     = cameraRotationRef (initial [])
  /\ cameraPosition (step 900 (initial []) (PinchUpdate 2))
     = cameraPosition (initial [])
  /\ castles (step 900 (initial []) (PinchUpdate 2)) = castles (initial [])
  /\ t (step 900 (initial []) (PinchUpdate 2)) = t (initial [])
  /\ frameCountRef (step 900 (initial []) (PinchUpdate 2))
     = frameCountRef (initial []).
Proof.
  apply (proj1 (gestures_aim_and_frames_move 900 (initial []))).
  discriminate.
Defined.

(** *** The camera and its distance *)

Lemma orbit_within d phi theta :
  0 <= d ->
  - d <= d * sin phi * sin theta <= d
  /\ - d <= d * cos phi <= d
  /\ - d <= d * sin phi * cos theta <= d.
Proof.
  intros Hd.
  pose proof (SIN_bound phi) as Hsp. pose proof (COS_bound phi) as Hcp.
  pose proof (SIN_bound theta) as Hst. pose proof (COS_bound theta) as Hct.
  assert (Hss : -1 <= sin phi * sin theta <= 1) by nra.
  assert (Hsc : -1 <= sin phi * cos theta <= 1) by nra.
  rewrite !Rmult_assoc. repeat split; nra.
Qed.

Lemma step_within_distance width s e :
  camera_in_range s -> within_distance s ->
  within_distance (step width s e).
Proof.
  intros Hrange Hs.
  assert (He : e = Frame \/ e <> Frame).
  { destruct e; (left; reflexivity) || (right; discriminate). }
  destruct He as [-> | He].
  - pose proof (step_in_range width s Frame Hrange) as (_ & Hd & _).
    unfold CAMERA_MIN_DISTANCE in Hd.
    unfold within_distance. simpl in *. apply orbit_within. lra.
  - destruct (gesture_leaves_the_view width s e He) as (H1 & _ & H3 & _).
    unfold within_distance. rewrite H1, H3. exact Hs.
Qed.

Lemma run_within_distance width events :
  forall s,
    camera_in_range s -> within_distance s ->
    within_distance (run width s events).
Proof.
  unfold run.
  induction events as [|e rest IH]; intros s Hrange Hs; simpl; [exact Hs|].
  apply IH; [apply step_in_range, Hrange | apply step_within_distance];
    assumption.
Qed.

(** X12.  In every state the scene reaches by pinch updates of nonzero
    scale, no coordinate of the camera position exceeds the current
    camera distance in magnitude, so each lies within 80 of the origin
    the camera looks at. *)
Theorem camera_stays_within_its_distance width loaded events :
  pinchScalesNonzero events ->
  let s := run width (initial loaded) events in
  let p := cameraPosition s in
  let d := cameraDistanceRef s in
  (- d <= vx p <= d /\ - d <= vy p <= d /\ - d <= vz p <= d)
  /\ d <= 80.
Proof.
  intros _ s p d. split.
  - apply (run_within_distance width events (initial loaded)).
    + apply initial_in_range.
    + unfold within_distance, initial, CAMERA_DEFAULT_DISTANCE. simpl.
      repeat split; lra.
  - destruct (run_in_range width events (initial loaded)
                (initial_in_range loaded)) as (_ & Hd & _).
    apply Hd.
Qed.

Lemma camera_stays_within_its_distance_witness :
  (- cameraDistanceRef (run 900 (initial []) sampleRun)
   <= vx (cameraPosition (run 900 (initial []) sampleRun))
   <= cameraDistanceRef (run 900 (initial []) sampleRun)
   /\ - cameraDistanceRef (run 900 (initial []) sampleRun)
      <= vy (cameraPosition (run 900 (initial []) sampleRun))
      <= cameraDistanceRef (run 900 (initial []) sampleRun)
   /\ - cameraDistanceRef (run 900 (initial []) sampleRun)
      <= vz (cameraPosition (run 900 (initial []) sampleRun))
      <= cameraDistanceRef (run 900 (initial []) sampleRun))
  /\ cameraDistanceRef (run 900 (initial []) sampleRun) <= 80.
Proof.
  apply (camera_stays_within_its_distance 900 [] sampleRun).
  unfold pinchScalesNonzero, sampleRun.
  repeat (constructor; try exact I). lra.
Defined.

(** *** Smoothing *)

Lemma frames_keep_targets width n :
  forall s,
    targetCameraDistanceRef (run width s (repeat Frame n))
    = targetCameraDistanceRef s
    /\ targetCameraRotationRef (run width s (repeat Frame n))
       = targetCameraRotationRef s.
Proof.
  unfold run. induction n as [|n IH]; intros s; simpl; [auto|].
  destruct (IH (animate s)) as [-> ->]. auto.
Qed.

Lemma lerp_between current target :
  between current target (current + (target - current) * 0.15).
Proof.
  unfold between, Rmin, Rmax. destruct (Rle_dec current target); lra.
Qed.

Lemma between_narrows start target x y :
  between start target x -> between x target y -> between start target y.
Proof.
  unfold between, Rmin, Rmax.
  destruct (Rle_dec start target); destruct (Rle_dec x target); lra.
Qed.

Lemma frames_stay_between width n :
  forall s,
    between (cameraDistanceRef s) (targetCameraDistanceRef s)
      (cameraDistanceRef (run width s (repeat Frame n)))
    /\ between (rot_x (cameraRotationRef s))
         (rot_x (targetCameraRotationRef s))
         (rot_x (cameraRotationRef (run width s (repeat Frame n)))).
Proof.
  unfold run. induction n as [|n IH]; intros s; simpl.
  - unfold between, Rmin, Rmax.
    split; match goal with |- context [Rle_dec ?a ?b] =>
             destruct (Rle_dec a b) end; lra.
  - destruct (IH (animate s)) as [Hd Hp]. simpl in Hd, Hp. split.
    + eapply between_narrows; [apply lerp_between | exact Hd].
    + eapply between_narrows; [apply lerp_between | exact Hp].
Qed.

(** X13.  With the targets left alone, smoothing never overshoots and
    never moves away: in every state the scene reaches by pinch updates
    of nonzero scale, after any number of frames the current distance
    and the current pitch lie between what they were and their targets,
    and one more frame puts each between its last value and its target. *)
Theorem smoothing_never_overshoots width loaded events n :
  pinchScalesNonzero events ->
  let s := run width (initial loaded) events in
  let s' := run width s (repeat Frame n) in
  between (cameraDistanceRef s) (targetCameraDistanceRef s)
    (cameraDistanceRef s')
  /\ between (rot_x (cameraRotationRef s))
       (rot_x (targetCameraRotationRef s)) (rot_x (cameraRotationRef s'))
  /\ between (cameraDistanceRef s') (targetCameraDistanceRef s)
       (cameraDistanceRef (animate s'))
  /\ between (rot_x (cameraRotationRef s'))
       (rot_x (targetCameraRotationRef s))
       (rot_x (cameraRotationRef (animate s'))).
Proof.
  intros _ s s'.
  destruct (frames_stay_between width n s) as [Hd Hp].
  destruct (frames_keep_targets width n s) as [Htd Htr]. fold s' in Htd, Htr.
  split; [exact Hd|]. split; [exact Hp|].
  rewrite <- Htd, <- Htr. simpl. split; apply lerp_between.
Qed.

Lemma smoothing_never_overshoots_witness :
  between (cameraDistanceRef (run 900 (initial []) sampleRun))
    (targetCameraDistanceRef (run 900 (initial []) sampleRun))
    (cameraDistanceRef
       (run 900 (run 900 (initial []) sampleRun) (repeat Frame 3)))
  /\ between (rot_x (cameraRotationRef (run 900 (initial []) sampleRun)))
       (rot_x (targetCameraRotationRef (run 900 (initial []) sampleRun)))
       (rot_x (cameraRotationRef
                 (run 900 (run 900 (initial []) sampleRun)
                    (repeat Frame 3)))).
Proof.
  destruct (smoothing_never_overshoots 900 [] sampleRun 3) as (Hd & Hp & _).
  - unfold pinchScalesNonzero, sampleRun.
    repeat (constructor; try exact I). lra.
  - split; [exact Hd | exact Hp].
Defined.

Lemma frame_at_rest s :
  cameraDistanceRef s = targetCameraDistanceRef s ->
  cameraRotationRef s = targetCameraRotationRef s ->
  cameraDistanceRef (animate s) = cameraDistanceRef s
  /\ cameraRotationRef (animate s) = cameraRotationRef s.
Proof.
  intros Hd Hr. simpl. rewrite <- Hd, <- Hr.
  destruct (cameraRotationRef s) as [x y]. simpl.
  split; [lra | f_equal; lra].
Qed.

Lemma frames_at_rest width n :
  forall s,
    cameraDistanceRef s = targetCameraDistanceRef s ->
    cameraRotationRef s = targetCameraRotationRef s ->
    cameraDistanceRef (run width s (repeat Frame n)) = cameraDistanceRef s
    /\ cameraRotationRef (run width s (repeat Frame n)) = cameraRotationRef s.
Proof.
  unfold run. induction n as [|n IH]; intros s Hd Hr; simpl; [auto|].
  destruct (frame_at_rest s Hd Hr) as [Hd' Hr'].
  destruct (IH (animate s)) as [-> ->].
  - rewrite Hd'. exact Hd.
  - rewrite Hr'. exact Hr.
  - auto.
Qed.

(** X21.  A camera that has reached its targets stays: when the current
    distance and rotation equal their targets, frames change neither,
    however many are drawn, until a gesture moves a target. *)
Theorem camera_at_rest_stays_put width s n :
  cameraDistanceRef s = targetCameraDistanceRef s ->
  cameraRotationRef s = targetCameraRotationRef s ->
  cameraDistanceRef (run width s (repeat Frame n)) = cameraDistanceRef s
  /\ cameraRotationRef (run width s (repeat Frame n)) = cameraRotationRef s.
Proof. apply frames_at_rest. Qed.

Lemma camera_at_rest_stays_put_witness :
  cameraDistanceRef (run 900 (initial []) (repeat Frame 3))
  = cameraDistanceRef (initial [])
  /\ cameraRotationRef (run 900 (initial []) (repeat Frame 3))
     = cameraRotationRef (initial []).
Proof.
  apply (camera_at_rest_stays_put 900 (initial []) 3%nat); reflexivity.
Defined.

(** *** Pinch *)





(** *** Taps *)

Lemma step_counts_taps width s e k :
  length (castleRotationsRef s) = 3%nat ->
  (k < 3)%nat ->
  nth k (castleRotationsRef (step width s e)) 0
  = nth k (castleRotationsRef s) 0
    + INR (tapsOn width (Z.of_nat k) [e]) * (PI / 4).
Proof.
  intros Hlen Hk.
  destruct e; simpl; try lra.
  unfold tapGesture, rotateCastle.
  pose proof (tappedCastle_band width x) as Hband.
  assert (Hin : ((0 <=? tappedCastle width x)
                 && (tappedCastle width x <? 3))%Z = true).
  { destruct Hband as [-> | [-> | ->]]; reflexivity. }
  rewrite Hin. simpl castleRotationsRef.
  destruct (Z.eqb_spec (tappedCastle width x) (Z.of_nat k)) as [Heq | Hne].
  - rewrite Heq, Nat2Z.id, add_at_same by lia. simpl. lra.
  - rewrite add_at_other; [simpl; lra|].
    intros ->. apply Hne. rewrite Z2Nat.id; [reflexivity|].
    destruct Hband as [-> | [-> | ->]]; lia.
Qed.

Lemma tapsOn_cons width k e rest :
  tapsOn width k (e :: rest)
  = (tapsOn width k [e] + tapsOn width k rest)%nat.
Proof. destruct e; simpl; lia. Qed.

Lemma run_counts_taps width events k :
  (k < 3)%nat ->
  forall s,
    length (castleRotationsRef s) = 3%nat ->
    nth k (castleRotationsRef (run width s events)) 0
    = nth k (castleRotationsRef s) 0
      + INR (tapsOn width (Z.of_nat k) events) * (PI / 4).
Proof.
  intros Hk. unfold run.
  induction events as [|e rest IH]; intros s Hlen.
  - simpl. lra.
  - simpl fold_left. rewrite IH.
    + rewrite (step_counts_taps width s e k Hlen Hk).
      rewrite (tapsOn_cons width _ e rest), plus_INR. lra.
    + rewrite step_rotations_length. exact Hlen.
Qed.

(** X16.  Only taps on its own band change the accumulated rotation of a
    castle, and they only raise it: from any state the scene reaches, a
    further run of events never lowers the rotation of castle [k], and
    leaves it exactly as it was when no tap of the run falls on band
    [k].  Nothing resets it. *)
Theorem tap_rotations_only_grow width loaded events more k :
  (k < 3)%nat ->
  let s := run width (initial loaded) events in
  let s' := run width s more in
  nth k (castleRotationsRef s) 0 <= nth k (castleRotationsRef s') 0
  /\ (tapsOn width (Z.of_nat k) more = 0%nat ->
      nth k (castleRotationsRef s') 0 = nth k (castleRotationsRef s) 0).
Proof.
  intros Hk s s'.
  assert (Hlen : length (castleRotationsRef s) = 3%nat).
  { subst s. rewrite run_rotations_length. reflexivity. }
  subst s'. rewrite (run_counts_taps width more k Hk s Hlen).
  pose proof (pos_INR (tapsOn width (Z.of_nat k) more)) as Hn.
  pose proof PI_RGT_0 as Hpi.
  split.
  - assert (0 <= INR (tapsOn width (Z.of_nat k) more) * (PI / 4)) by nra.
    lra.
  - intros ->. simpl. lra.
Qed.

Lemma tap_rotations_only_grow_witness :
  nth 0 (castleRotationsRef (run 900 (initial []) sampleRun)) 0
  <= nth 0 (castleRotationsRef
              (run 900 (run 900 (initial []) sampleRun)
                 [Frame; PanUpdate 3 4])) 0
  /\ nth 0 (castleRotationsRef
              (run 900 (run 900 (initial []) sampleRun)
                 [Frame; PanUpdate 3 4])) 0
     = nth 0 (castleRotationsRef (run 900 (initial []) sampleRun)) 0.
Proof.
  destruct (tap_rotations_only_grow 900 [] sampleRun [Frame; PanUpdate 3 4] 0)
    as [Hle Heq]; [lia|].
  split; [exact Hle | apply Heq; reflexivity].
Defined.

(** *** The clock *)

Lemma run_clock width events :
  forall s,
    frameCountRef (run width s events)
    = (frameCountRef s + framesIn events)%nat.
Proof.
  unfold run.
  induction events as [|e rest IH]; intros s.
  - simpl. lia.
  - simpl fold_left. rewrite IH.
    assert (He : e = Frame \/ e <> Frame).
    { destruct e; (left; reflexivity) || (right; discriminate). }
    destruct He as [-> | He].
    + simpl. lia.
    + destruct (gesture_leaves_the_view width s e He)
        as (_ & _ & _ & _ & _ & ->).
      destruct e; try congruence; simpl; lia.
Qed.

(** X17.  The frame counter counts frames and nothing else: in every
    state the scene reaches it is the number of frames drawn, whatever
    gestures came in between. *)
Theorem frame_counter_counts_the_frames width loaded events :
  frameCountRef (run width (initial loaded) events) = framesIn events.
Proof. rewrite run_clock. reflexivity. Qed.

(** *** Floating *)

Lemma animateCastles_within_bounds castles time :
  castles_within_bounds (animateCastles castles time).
Proof.
  intros i g Hg. rewrite animateCastles_nth in Hg.
  destruct (nth_error castles i) as [[n cs]|]; [|discriminate].
  injection Hg as <-. unfold position_of, rotation_of. simpl.
  unfold bob, sway_z, sway_x.
  pose proof (SIN_bound (time * 0.4 + INR i * 2.0)).
  pose proof (SIN_bound (time * 0.15 + INR i * 2.0)).
  pose proof (COS_bound (time * 0.18 + INR i * 2.0 * 0.5)).
  lra.
Qed.

Lemma run_within_bounds width events :
  forall s,
    castles_within_bounds (castles s) \/ (0 < framesIn events)%nat ->
    castles_within_bounds (castles (run width s events)).
Proof.
  unfold run.
  induction events as [|e rest IH]; intros s H.
  - destruct H as [H | H]; [exact H | simpl in H; lia].
  - simpl fold_left. apply IH.
    assert (He : e = Frame \/ e <> Frame).
    { destruct e; (left; reflexivity) || (right; discriminate). }
    destruct He as [-> | He].
    + left. simpl. apply animateCastles_within_bounds.
    + destruct (gesture_leaves_the_view width s e He)
        as (_ & _ & _ & -> & _).
      destruct H as [H | H]; [left; exact H | right].
      destruct e; try congruence; exact H.
Qed.

(** X18.  Once a frame has been drawn, every castle floats within fixed
    bounds, in every state the scene reaches afterwards: its height is
    within 2.5 of the ground plane, its roll within 0.02 and its tilt
    within 0.015 radians. *)
Theorem castles_float_within_bounds width loaded events i g :
  (0 < framesIn events)%nat ->
  nth_error (castles (run width (initial loaded) events)) i = Some g ->
  - 2.5 <= vy (position_of g) <= 2.5
  /\ - 0.02 <= vz (rotation_of g) <= 0.02
  /\ - 0.015 <= vx (rotation_of g) <= 0.015.
Proof.
  intros Hframe Hg.
  apply (run_within_bounds width events (initial loaded)
           (or_intror Hframe) i g Hg).
Qed.

Lemma castles_float_within_bounds_witness :
  exists g,
    nth_error (castles (run 900 (initial oneCastle) [Frame])) 0 = Some g
    /\ - 2.5 <= vy (position_of g) <= 2.5
    /\ - 0.02 <= vz (rotation_of g) <= 0.02
    /\ - 0.015 <= vx (rotation_of g) <= 0.015.
Proof.
  eexists. split; [reflexivity|].
  apply (castles_float_within_bounds 900 oneCastle [Frame] 0%nat);
    [simpl; lia | reflexivity].
Defined.

End SceneMore.
